(** * babel-io: the streaming speech -> translation -> speech pipeline

    A shallow embedding of [demos/streamspeech2text/main.go].

    The program is four loops (goroutines) glued to three remote services.
    Every call that leaves the program ([os.Stdin.Read], [stream.Send],
    [stream.Recv], [translate.NewClient], ...) is answered by a _script_:
    the list of answers the outside world gives, in the order the loop asks
    for them.  A loop is then a structurally recursive function from its
    script to the trace of effects it performs and the way it stops.  A
    script that runs out leaves the loop [Blocked] inside its next call. *)

From stdpp Require Import gmap strings list.
From Stdlib Require Import ZArith Strings.Byte.

Local Open Scope string_scope.
Local Open Scope list_scope.

(** ** Data *)

Abbreviation byte := Byte.byte.

#[global] Instance byte_eq_dec : EqDecision byte := Stdlib.Strings.Byte.byte_eq_dec.

(** Go [error] values.  [io_EOF] is the sentinel [io.EOF], which the code
    tests with [==]; every other error is [err msg]. *)
Inductive error : Type :=
  | io_EOF
  | err (msg : string).

#[global] Instance error_eq_dec : EqDecision error.
Proof. solve_decision. Defined.

(** [google.rpc.Status], the [Error] field of a streaming response. *)
Record Status : Type := { Code : Z; Message : string }.

(** [speechpb.SpeechRecognitionAlternative]; the confidence score is never
    read by the program and is left out. *)
Record SpeechRecognitionAlternative : Type := { Transcript : string }.

(** [speechpb.StreamingRecognitionResult].  [Results] holds pointers, and
    the generated getter [GetAlternatives] accepts a nil receiver. *)
Record StreamingRecognitionResult : Type :=
  { Alternatives : list SpeechRecognitionAlternative }.

Record StreamingRecognizeResponse : Type :=
  { Error : option Status;
    Results : list (option StreamingRecognitionResult) }.

(** [translate.Translation]. *)
Record Translation : Type :=
  { Text : string; Source : string; Model : string }.

(** The fields of [texttospeechpb.SynthesizeSpeechRequest] the code sets. *)
Inductive SsmlVoiceGender := SsmlVoiceGender_NEUTRAL.
Inductive AudioEncoding := AudioEncoding_MP3.

Record SynthesizeSpeechRequest : Type :=
  { Input_Text : string;
    Voice_LanguageCode : string;
    Voice_SsmlGender : SsmlVoiceGender;
    AudioConfig_AudioEncoding : AudioEncoding }.

(** The argument printed by a [%v] verb. *)
Inductive arg : Type :=
  | ArgErr (e : error)
  | ArgStatus (s : Status)
  | ArgStr (s : string).

(** ** Effects *)

(** An event records a call the program makes; for a call that can fail,
    the call is recorded whether or not it fails. *)
Inductive event : Type :=
  (* the recognition stream *)
  | Send (AudioContent : list byte)
  | CloseSend
  (* package log and fmt *)
  | Log_Printf (format : string) (a : arg)
  | Log_Print (s : string)
  | Log_Fatalf (format : string) (a : arg)
  | Log_Fatal (e : error)
  | Fmt_Println (a b : string)
  | Fmt_Printf (format : string) (a : string)
  (* the two channels *)
  | AltsSend (alt : SpeechRecognitionAlternative)
  | AltsRecv (alt : SpeechRecognitionAlternative)
  | TextsSend (text : string)
  | TextsRecv (text : string)
  (* translation and synthesis *)
  | Translate_NewClient
  | Language_Parse (code : string)
  | Client_Translate (inputs : list string) (target : string)
  | Client_SynthesizeSpeech (req : SynthesizeSpeechRequest)
  | Ioutil_WriteFile (filename : string) (data : list byte) (perm : Z).

(** How a loop stops.  [Fatal] is [log.Fatal]/[log.Fatalf]: the message is
    logged and [os.Exit(1)] ends the whole process.  [Panicked] is a Go
    run-time panic, which also ends the process.  [Blocked] is a loop that
    has not stopped: it waits inside a call the script does not answer. *)
Inductive outcome : Type :=
  | Returned
  | Blocked
  | Fatal
  | Panicked.

#[global] Instance outcome_eq_dec : EqDecision outcome.
Proof. solve_decision. Defined.

Definition kills_process (o : outcome) : bool :=
  match o with
  | Fatal | Panicked => true
  | Returned | Blocked => false
  end.

(** Projections of a trace. *)
Definition sent_audio (t : list event) : list (list byte) :=
  omap (fun e => match e with Send a => Some a | _ => None end) t.

Definition close_sends (t : list event) : list unit :=
  omap (fun e => match e with CloseSend => Some tt | _ => None end) t.

Definition forwarded_alts (t : list event) : list SpeechRecognitionAlternative :=
  omap (fun e => match e with AltsSend a => Some a | _ => None end) t.

Definition printed (t : list event) : list string :=
  omap (fun e => match e with
                 | Fmt_Println _ s | Fmt_Printf _ s => Some s
                 | _ => None
                 end) t.

Definition forwarded_texts (t : list event) : list string :=
  omap (fun e => match e with TextsSend s => Some s | _ => None end) t.

Definition received_texts (t : list event) : list string :=
  omap (fun e => match e with TextsRecv s => Some s | _ => None end) t.

Definition synthesis_requests (t : list event) : list string :=
  omap (fun e => match e with
                 | Client_SynthesizeSpeech r => Some (Input_Text r)
                 | _ => None
                 end) t.

Definition file_writes (t : list event) : list (string * list byte) :=
  omap (fun e => match e with
                 | Ioutil_WriteFile f d _ => Some (f, d)
                 | _ => None
                 end) t.

Definition is_fatal_event (e : event) : bool :=
  match e with
  | Log_Fatalf _ _ | Log_Fatal _ => true
  | _ => false
  end.

(** ** Stage 1: the audio ingester, [startListeningStdin] *)

(** What one [os.Stdin.Read] delivers: the bytes the input has ready and
    the error it reports. *)
Record stdin_read : Type :=
  { rd_data : list byte; rd_err : option error }.

(** One turn of the loop as the outside world answers it: the read, and the
    error (if any) of the [stream.Send] that follows. *)
Record listen_step : Type :=
  { ls_read : stdin_read; ls_send : option error }.

Definition buf_size : nat := 1024.

(** [n, err := os.Stdin.Read(buf)]: at most [len(buf)] bytes are copied to
    the front of [buf]. *)
Definition Read (r : stdin_read) (buf : list byte) : nat * list byte :=
  let n := Nat.min (length (rd_data r)) (length buf) in
  (n, take n (rd_data r) ++ drop n buf).

Definition log_if (o : option error) (format : string) : list event :=
  match o with
  | Some e => [Log_Printf format (ArgErr e)]
  | None => []
  end.

(** The body of the [for] loop, lines 72-92.  The send comes first, for
    every read, and only then is the read's error looked at. *)
Fixpoint listen_loop (buf : list byte) (script : list listen_step)
    (close : option error) : list event * outcome :=
  match script with
  | [] => ([], Blocked)
  | s :: rest =>
      let '(n, buf) := Read (ls_read s) buf in
      let sending :=
        Send (take n buf) :: log_if (ls_send s) "Could not send audio: %v" in
      match rd_err (ls_read s) with
      | Some io_EOF =>
          match close with
          | Some e =>
              (sending ++
                 [CloseSend; Log_Fatalf "Could not close stream: %v" (ArgErr e)],
               Fatal)
          | None => (sending ++ [CloseSend], Returned)
          end
      | Some e =>
          let '(t, o) := listen_loop buf rest close in
          (sending ++
             Log_Printf "Could not read from stdin: %v" (ArgErr e) :: t, o)
      | None =>
          let '(t, o) := listen_loop buf rest close in
          (sending ++ t, o)
      end
  end.

Definition startListeningStdin (script : list listen_step)
    (close : option error) : list event * outcome :=
  listen_loop (replicate buf_size Byte.x00) script close.

(** The audio content of the message a turn sends: [buf[:n]]. *)
Definition chunk (s : listen_step) : list byte :=
  take buf_size (rd_data (ls_read s)).

Definition at_eof (s : listen_step) : Prop :=
  rd_err (ls_read s) = Some io_EOF.

#[global] Instance at_eof_dec s : Decision (at_eof s).
Proof. unfold at_eof. apply _. Defined.

(** The events of a turn that does not end the loop. *)
Definition turn_events (s : listen_step) : list event :=
  Send (chunk s) :: log_if (ls_send s) "Could not send audio: %v" ++
  log_if (rd_err (ls_read s)) "Could not read from stdin: %v".

(** The zero-length input: the first read reports end-of-input. *)
Definition eof_read : listen_step :=
  {| ls_read := {| rd_data := []; rd_err := Some io_EOF |}; ls_send := None |}.

(** A read that delivers two bytes and no error, sent without error. *)
Definition two_bytes : listen_step :=
  {| ls_read := {| rd_data := [Byte.x01; Byte.x02]; rd_err := None |};
     ls_send := None |}.

(** What follows the last send once end-of-input is seen: lines 83-86. *)
Definition closing (close : option error) : list event * outcome :=
  match close with
  | Some e => ([CloseSend; Log_Fatalf "Could not close stream: %v" (ArgErr e)], Fatal)
  | None => ([CloseSend], Returned)
  end.

(** The events of the turn that reads end-of-input, and how it stops. *)
Definition last_turn (s : listen_step) (close : option error)
    : list event * outcome :=
  (Send (chunk s) :: log_if (ls_send s) "Could not send audio: %v"
     ++ (closing close).1,
   (closing close).2).

(** ** Stage 2: the transcript receiver, [startReceivingStream] *)

(** What [stream.Recv()] returns: an error with no response, or a response
    with a nil error. *)
Inductive recv_result : Type :=
  | RecvErr (e : error)
  | RecvResp (resp : StreamingRecognizeResponse).

#[global] Instance Status_eq_dec : EqDecision Status.
Proof. solve_decision. Defined.

#[global] Instance SpeechRecognitionAlternative_eq_dec :
  EqDecision SpeechRecognitionAlternative.
Proof. solve_decision. Defined.

#[global] Instance StreamingRecognitionResult_eq_dec :
  EqDecision StreamingRecognitionResult.
Proof. solve_decision. Defined.

#[global] Instance StreamingRecognizeResponse_eq_dec :
  EqDecision StreamingRecognizeResponse.
Proof. solve_decision. Defined.

#[global] Instance recv_result_eq_dec : EqDecision recv_result.
Proof. solve_decision. Defined.

Definition GetAlternatives (result : option StreamingRecognitionResult)
    : list SpeechRecognitionAlternative :=
  match result with
  | Some r => Alternatives r
  | None => []
  end.

(** Lines 115-116, for one alternative. *)
Definition forward_alternative (alt : SpeechRecognitionAlternative) : list event :=
  [Fmt_Println "Transcript alternatives: " (Transcript alt); AltsSend alt].

(** Lines 113-117, for one result. *)
Definition forward_result (result : option StreamingRecognitionResult) : list event :=
  concat (map forward_alternative (GetAlternatives result)).

(** Lines 112-118. *)
Definition forward_results (results : list (option StreamingRecognitionResult))
    : list event :=
  concat (map forward_result results).

(** Line 107: the two status codes taken to mean the 60-second limit. *)
Definition exceeded_limit (st : Status) : bool :=
  (Code st =? 3)%Z || (Code st =? 11)%Z.

Definition limit_warning : string :=
  "WARNING: Speech recognition request exceeded limit of 60 seconds.".

(** Lines 105-111. *)
Definition recognition_failed (st : Status) : list event :=
  (if exceeded_limit st then [Log_Print limit_warning] else []) ++
  [Log_Fatalf "Could not recognize: %v" (ArgStatus st)].

Fixpoint startReceivingStream (script : list recv_result) : list event * outcome :=
  match script with
  | [] => ([], Blocked)
  | RecvErr io_EOF :: _ => ([], Returned)
  | RecvErr e :: _ => ([Log_Fatalf "Cannot stream results: %v" (ArgErr e)], Fatal)
  | RecvResp resp :: rest =>
      match Error resp with
      | Some st => (recognition_failed st, Fatal)
      | None =>
          let '(t, o) := startReceivingStream rest in
          (forward_results (Results resp) ++ t, o)
      end
  end.

(** A response the loop goes past. *)
Definition healthy (r : recv_result) : Prop :=
  match r with
  | RecvResp resp => Error resp = None
  | RecvErr _ => False
  end.

(** The stream reports end-of-stream. *)
Definition end_of_stream (r : recv_result) : Prop := r = RecvErr io_EOF.

(** Every other way a receive goes wrong. *)
Definition broken (r : recv_result) : Prop :=
  match r with
  | RecvErr e => e <> io_EOF
  | RecvResp resp => Error resp <> None
  end.

(** What the loop does with a response it goes past, and the events with
    which it ends the process at one it does not. *)
Definition response_events (r : recv_result) : list event :=
  match r with
  | RecvResp resp => forward_results (Results resp)
  | RecvErr _ => []
  end.

Definition fatal_events (r : recv_result) : list event :=
  match r with
  | RecvErr e => [Log_Fatalf "Cannot stream results: %v" (ArgErr e)]
  | RecvResp resp =>
      match Error resp with
      | Some st => recognition_failed st
      | None => []
      end
  end.

(** Every alternative of every result of a run of responses, in order. *)
Definition all_alternatives (resps : list StreamingRecognizeResponse)
    : list SpeechRecognitionAlternative :=
  concat (map (fun resp => concat (map GetAlternatives (Results resp))) resps).

(** A response with one result that holds two alternatives. *)
Definition ola_result : option StreamingRecognitionResult :=
  Some {| Alternatives := [ {| Transcript := "ola" |};
                            {| Transcript := "ola!" |} ] |}.

Definition ola_response : StreamingRecognizeResponse :=
  {| Error := None; Results := [ola_result] |}.

(** ** Stage 3: the translator, [startTranslating] *)

(** One turn as the outside world answers it: the alternative that arrives
    on [alts], and the results of [translate.NewClient], [language.Parse]
    and [client.Translate] (a Go pair of a slice and an error). *)
Record translate_step : Type :=
  { tr_alt : SpeechRecognitionAlternative;
    tr_client : option error;
    tr_parse : option error;
    tr_translations : list Translation;
    tr_translate : option error }.

(** Lines 164-165: both statements index [translations[0]]. *)
Definition forward_translation (translations : list Translation)
    : option (list event) :=
  match translations !! 0%nat with
  | Some t0 => Some [Fmt_Printf "Translation: %v\n" (Text t0); TextsSend (Text t0)]
  | None => None
  end.

Fixpoint startTranslating (code : string) (script : list translate_step)
    : list event * outcome :=
  match script with
  | [] => ([], Blocked)
  | s :: rest =>
      let text := Transcript (tr_alt s) in
      let t1 := [AltsRecv (tr_alt s); Translate_NewClient] in
      match tr_client s with
      | Some e => (t1 ++ [Log_Fatalf "Failed to create client: %v" (ArgErr e)], Fatal)
      | None =>
          let t2 := t1 ++ [Language_Parse code] in
          match tr_parse s with
          | Some e =>
              (t2 ++ [Log_Fatalf "Failed to parse target language: %v" (ArgErr e)],
               Fatal)
          | None =>
              let t3 := t2 ++ [Client_Translate [text] code] in
              match tr_translate s with
              | Some e =>
                  (t3 ++ [Log_Fatalf "Failed to translate text: %v" (ArgErr e)],
                   Fatal)
              | None =>
                  match forward_translation (tr_translations s) with
                  | None => (t3, Panicked)
                  | Some out =>
                      let '(t, o) := startTranslating code rest in
                      (t3 ++ out ++ t, o)
                  end
              end
          end
      end
  end.

(** A turn in which one of the three calls fails. *)
Definition fails (s : translate_step) : Prop :=
  tr_client s <> None \/ tr_parse s <> None \/ tr_translate s <> None.

(** A turn in which all three calls succeed. *)
Definition translates (s : translate_step) : Prop :=
  tr_client s = None /\ tr_parse s = None /\ tr_translate s = None.

(** The calls of a turn in which all three succeed (lines 145-159). *)
Definition translate_calls (code : string) (s : translate_step) : list event :=
  [AltsRecv (tr_alt s); Translate_NewClient; Language_Parse code;
   Client_Translate [Transcript (tr_alt s)] code].

(** The events of a turn that forwards a translation. *)
Definition translate_events (code : string) (s : translate_step) : list event :=
  translate_calls code s ++
  match tr_translations s !! 0%nat with
  | Some t0 => [Fmt_Printf "Translation: %v\n" (Text t0); TextsSend (Text t0)]
  | None => []
  end.

(** A turn that forwards a translation: the calls succeed and the response
    is not empty. *)
Definition forwards (s : translate_step) : Prop :=
  translates s /\ tr_translations s <> [].

(** A turn that answers the alternative "ola" with one translation. *)
Definition echo_ola : translate_step :=
  {| tr_alt := {| Transcript := "ola" |};
     tr_client := None; tr_parse := None;
     tr_translations := [ {| Text := "ola"; Source := "en"; Model := "" |} ];
     tr_translate := None |}.

(** ** Stage 4: the speaker, [startSpeaking] *)

(** The files of the working directory, by name. *)
Abbreviation files := (gmap string (list byte)).

(** How [ioutil.WriteFile] ends: it succeeds, or it fails and leaves the
    file untouched ([None]) or with some other content. *)
Inductive write_result : Type :=
  | WriteOk
  | WriteFailed (e : error) (left : option (list byte)).

Definition WriteFile (fs : files) (filename : string) (data : list byte)
    (r : write_result) : files * option error :=
  match r with
  | WriteOk => (<[filename := data]> fs, None)
  | WriteFailed e None => (fs, Some e)
  | WriteFailed e (Some d) => (<[filename := d]> fs, Some e)
  end.

(** One turn: the text that arrives on [texts], the answer of
    [client.SynthesizeSpeech] and the result of the write. *)
Record speak_step : Type :=
  { sp_text : string;
    sp_audio : list byte;
    sp_synth : option error;
    sp_write : write_result }.

Definition filename : string := "output.mp3".

(** Lines 182-197.  The mode [0644] of line 206 is 420. *)
Definition synthesis_request (text lang : string) : SynthesizeSpeechRequest :=
  {| Input_Text := text;
     Voice_LanguageCode := lang;
     Voice_SsmlGender := SsmlVoiceGender_NEUTRAL;
     AudioConfig_AudioEncoding := AudioEncoding_MP3 |}.

Fixpoint speak_loop (lang : string) (fs : files) (script : list speak_step)
    : list event * files * outcome :=
  match script with
  | [] => ([], fs, Blocked)
  | s :: rest =>
      let t1 := [TextsRecv (sp_text s);
                 Client_SynthesizeSpeech (synthesis_request (sp_text s) lang)] in
      match sp_synth s with
      | Some e => (t1 ++ [Log_Fatal e], fs, Fatal)
      | None =>
          let t2 := t1 ++ [Ioutil_WriteFile filename (sp_audio s) 420%Z] in
          match WriteFile fs filename (sp_audio s) (sp_write s) with
          | (fs, Some e) => (t2 ++ [Log_Fatal e], fs, Fatal)
          | (fs, None) =>
              let '(t, fs, o) := speak_loop lang fs rest in
              (t2 ++ Fmt_Printf "Audio content written to file: %v\n" filename :: t,
               fs, o)
          end
      end
  end.

Definition startSpeaking (lang : string) (client : option error) (fs : files)
    (script : list speak_step) : list event * files * outcome :=
  match client with
  | Some e => ([Log_Fatal e], fs, Fatal)
  | None => speak_loop lang fs script
  end.

(** A turn in which synthesis and write both succeed. *)
Definition succeeds (s : speak_step) : Prop :=
  sp_synth s = None /\ sp_write s = WriteOk.

#[global] Instance write_result_eq_dec : EqDecision write_result.
Proof. solve_decision. Defined.

#[global] Instance succeeds_dec s : Decision (succeeds s).
Proof. unfold succeeds. apply _. Defined.

(** The events of a turn in which synthesis and write both succeed. *)
Definition speak_events (lang : string) (s : speak_step) : list event :=
  [TextsRecv (sp_text s);
   Client_SynthesizeSpeech (synthesis_request (sp_text s) lang);
   Ioutil_WriteFile filename (sp_audio s) 420%Z;
   Fmt_Printf "Audio content written to file: %v\n" filename].

(** Two texts answered with different audio. *)
Definition say (text : string) (audio : list byte) : speak_step :=
  {| sp_text := text; sp_audio := audio; sp_synth := None; sp_write := WriteOk |}.

(** ** The process: [main] and the four goroutines

    [main] (lines 122-139) starts the four loops with [go], makes the
    channel [wait] and receives from it.  All three channels are made
    without a capacity, so a receive completes only together with a send on
    the same channel; no channel is ever closed. *)

Inductive stage : Type := listen | receive | translate | speak.

Inductive channel : Type := ch_alts | ch_texts | ch_wait.

#[global] Instance stage_eq_dec : EqDecision stage.
Proof. solve_decision. Defined.

#[global] Instance channel_eq_dec : EqDecision channel.
Proof. solve_decision. Defined.

(** The channel operations in the body of each loop: [alts <- alt] on line
    116, [<-alts] on line 145, [texts <- ...] on line 165 and [<-texts] on
    line 178.  [wait] is local to [main] and passed to no goroutine. *)
Definition sends_on (s : stage) (c : channel) : bool :=
  match s, c with
  | receive, ch_alts => true
  | translate, ch_texts => true
  | _, _ => false
  end.

Definition receives_on (s : stage) (c : channel) : bool :=
  match s, c with
  | translate, ch_alts => true
  | speak, ch_texts => true
  | _, _ => false
  end.

(** The ways each loop can stop, as its function above allows. *)
Definition can_stop (s : stage) (o : outcome) : bool :=
  match s, o with
  | listen, (Returned | Fatal) => true
  | receive, (Returned | Fatal) => true
  | translate, (Fatal | Panicked) => true
  | speak, Fatal => true
  | _, _ => false
  end.

(** Where [main] is once the goroutines are started. *)
Inductive main_pc : Type :=
  | at_make_wait      (* line 137 *)
  | at_recv_wait      (* line 138, inside [<-wait] *)
  | at_end.           (* line 139, the receive is over *)

Inductive stage_state : Type :=
  | Busy
  | Sending (c : channel)
  | Receiving (c : channel)
  | Over.

(** Why the process is gone: [main] returned (exit status 0), a stage
    stopped it, or it was terminated from outside. *)
Inductive termination : Type :=
  | exit_success
  | died_in (s : stage) (o : outcome)
  | killed.

Record process : Type :=
  { pc : main_pc;
    stage_at : stage -> stage_state;
    status : option termination }.

Definition set_stage (f : stage -> stage_state) (s : stage) (x : stage_state)
    : stage -> stage_state :=
  fun s' => if decide (s' = s) then x else f s'.

(** The state right after line 135. *)
Definition launched : process :=
  {| pc := at_make_wait; stage_at := fun _ => Busy; status := None |}.

Inductive step : process -> process -> Prop :=
  | main_make_wait p :
      status p = None -> pc p = at_make_wait ->
      step p {| pc := at_recv_wait; stage_at := stage_at p; status := None |}
  | main_receive p s :
      status p = None -> pc p = at_recv_wait ->
      stage_at p s = Sending ch_wait ->
      step p {| pc := at_end;
                stage_at := set_stage (stage_at p) s Busy;
                status := None |}
  | main_return p :
      status p = None -> pc p = at_end ->
      step p {| pc := at_end; stage_at := stage_at p;
                status := Some exit_success |}
  | stage_send p s c :
      status p = None -> stage_at p s = Busy -> sends_on s c = true ->
      step p {| pc := pc p;
                stage_at := set_stage (stage_at p) s (Sending c);
                status := None |}
  | stage_receive p s c :
      status p = None -> stage_at p s = Busy -> receives_on s c = true ->
      step p {| pc := pc p;
                stage_at := set_stage (stage_at p) s (Receiving c);
                status := None |}
  | stage_handoff p s r c :
      status p = None ->
      stage_at p s = Sending c -> stage_at p r = Receiving c ->
      step p {| pc := pc p;
                stage_at := set_stage (set_stage (stage_at p) s Busy) r Busy;
                status := None |}
  | stage_stop p s o :
      status p = None -> stage_at p s = Busy -> can_stop s o = true ->
      step p {| pc := pc p;
                stage_at := set_stage (stage_at p) s Over;
                status := if kills_process o then Some (died_in s o) else None |}
  | external_kill p :
      status p = None ->
      step p {| pc := pc p; stage_at := stage_at p; status := Some killed |}.

Definition reachable (p : process) : Prop := rtc step launched p.

(** No stage is ever about to send on [wait]. *)
Definition wait_unused (p : process) : Prop :=
  forall s, stage_at p s <> Sending ch_wait.

(** [main] inside [<-wait], the four loops running. *)
Definition waiting : process :=
  {| pc := at_recv_wait; stage_at := fun _ => Busy; status := None |}.

(** The process is gone because a stage ended it or it was terminated from
    outside, not because [main] returned. *)
Definition abnormal (t : termination) : Prop :=
  match t with
  | exit_success => False
  | died_in s o => kills_process o = true /\ can_stop s o = true
  | killed => True
  end.

(** What every step keeps: [main] has not got past [<-wait], no stage is
    sending on [wait], and if the process is gone it is not by a return of
    [main]. *)
Definition stuck (p : process) : Prop :=
  pc p <> at_end /\ wait_unused p /\
  forall t, status p = Some t -> abnormal t.

(** ** The start of the program: [setupSpeechStream] and [main] *)

(** The recognition configuration of lines 56-61. *)
Inductive RecognitionConfig_AudioEncoding := RecognitionConfig_LINEAR16.

Record RecognitionConfig : Type :=
  { Encoding : RecognitionConfig_AudioEncoding;
    SampleRateHertz : Z;
    LanguageCode : string;
    EnableAutomaticPunctuation : bool }.

(** The calls of [setupSpeechStream]. *)
Inductive setup_event : Type :=
  | Speech_NewClient
  | Client_StreamingRecognize
  | SendConfig (config : RecognitionConfig).

(** The stream value the function hands back; [None] is Go's nil. *)
Inductive stream_client : Type := the_stream.

(** The answers of the three calls: [speech.NewClient],
    [speechClient.StreamingRecognize] and the first [stream.Send]. *)
Record setup_answers : Type :=
  { su_client : option error;
    su_stream : option error;
    su_send : option error }.

Definition initial_config : RecognitionConfig :=
  {| Encoding := RecognitionConfig_LINEAR16;
     SampleRateHertz := 16000;
     LanguageCode := "en-US";
     EnableAutomaticPunctuation := true |}.

(** Lines 43-67.  The last line returns the stream together with the error
    of the send, whatever it is. *)
Definition setupSpeechStream (a : setup_answers)
    : list setup_event * (option stream_client * option error) :=
  match su_client a with
  | Some e => ([Speech_NewClient], (None, Some e))
  | None =>
      match su_stream a with
      | Some e => ([Speech_NewClient; Client_StreamingRecognize], (None, Some e))
      | None =>
          ([Speech_NewClient; Client_StreamingRecognize; SendConfig initial_config],
           (Some the_stream, su_send a))
      end
  end.

(** How [main] gets to line 136: it panics with the error of the setup, or
    the four loops are started. *)
Inductive main_result : Type :=
  | MainPanic (e : error)
  | MainLaunched (p : process).

(** Lines 123-135. *)
Definition main_start (a : setup_answers) : list setup_event * main_result :=
  let '(t, (stream, er)) := setupSpeechStream a in
  match er with
  | Some e => (t, MainPanic e)
  | None => (t, MainLaunched launched)
  end.

(** The first answer of the setup that is an error. *)
Definition first_setup_error (a : setup_answers) : option error :=
  match su_client a, su_stream a with
  | Some e, _ => Some e
  | None, Some e => Some e
  | None, None => su_send a
  end.

(** ** Further notions for the four loops *)

(** The turns the ingester takes: up to and with the first end-of-input. *)
Fixpoint turns_taken (script : list listen_step) : list listen_step :=
  match script with
  | [] => []
  | s :: rest => if decide (at_eof s) then [s] else s :: turns_taken rest
  end.

Definition received_alts (t : list event) : list SpeechRecognitionAlternative :=
  omap (fun e => match e with AltsRecv a => Some a | _ => None end) t.

Definition new_clients (t : list event) : list unit :=
  omap (fun e => match e with Translate_NewClient => Some tt | _ => None end) t.

Definition translate_requests (t : list event) : list (list string * string) :=
  omap (fun e => match e with
                 | Client_Translate inputs target => Some (inputs, target)
                 | _ => None
                 end) t.

Definition warnings (t : list event) : list string :=
  omap (fun e => match e with Log_Print s => Some s | _ => None end) t.

(** A response reduced to its first translation. *)
Definition keep_first (s : translate_step) : translate_step :=
  {| tr_alt := tr_alt s; tr_client := tr_client s; tr_parse := tr_parse s;
     tr_translations := take 1 (tr_translations s);
     tr_translate := tr_translate s |}.

(** The text a turn forwards, when it forwards one. *)
Definition translated_text (s : translate_step) : option string :=
  Text <$> tr_translations s !! 0%nat.

(** The goroutine whose calls an event records; the calls of [log] and
    [fmt] are made by all of them. *)
Definition owner (e : event) : option stage :=
  match e with
  | Send _ | CloseSend => Some listen
  | AltsSend _ => Some receive
  | AltsRecv _ | TextsSend _ | Translate_NewClient | Language_Parse _
  | Client_Translate _ _ => Some translate
  | TextsRecv _ | Client_SynthesizeSpeech _ | Ioutil_WriteFile _ _ _ => Some speak
  | Log_Printf _ _ | Log_Print _ | Log_Fatalf _ _ | Log_Fatal _
  | Fmt_Println _ _ | Fmt_Printf _ _ => None
  end.

(** The channel operation an event records: the channel, and whether it is
    a send. *)
Definition channel_op (e : event) : option (bool * channel) :=
  match e with
  | AltsSend _ => Some (true, ch_alts)
  | AltsRecv _ => Some (false, ch_alts)
  | TextsSend _ => Some (true, ch_texts)
  | TextsRecv _ => Some (false, ch_texts)
  | _ => None
  end.

Definition in_table (s : stage) (op : bool * channel) : bool :=
  if op.1 then sends_on s op.2 else receives_on s op.2.

(** An event a stage may produce: its own call or a [log]/[fmt] call, and
    if a channel operation, one of its table. *)
Definition belongs_to (s : stage) (e : event) : Prop :=
  (owner e = None \/ owner e = Some s) /\
  forall op, channel_op e = Some op -> in_table s op = true.

(** The input is exhausted and the stream has ended: the ingester and the
    receiver have returned, the translator and the speaker wait for a value
    and [main] waits in [<-wait]. *)
Definition drained (p : process) : Prop :=
  status p = None /\ pc p = at_recv_wait /\
  stage_at p listen = Over /\ stage_at p receive = Over /\
  stage_at p translate = Receiving ch_alts /\
  stage_at p speak = Receiving ch_texts.

Definition drained_process : process :=
  {| pc := at_recv_wait;
     stage_at := fun s => match s with
                          | listen | receive => Over
                          | translate => Receiving ch_alts
                          | speak => Receiving ch_texts
                          end;
     status := None |}.

(** * Properties *)

(** ** The audio ingester *)

Section Ingester.

Implicit Types (buf : list byte) (s last : listen_step)
  (script chunks rest : list listen_step) (close : option error).

Lemma Read_buf r buf :
  length buf = buf_size ->
  length (Read r buf).2 = buf_size /\
  take (Read r buf).1 (Read r buf).2 = take buf_size (rd_data r).
Proof.
  intros Hbuf. unfold Read. cbn [fst snd]. rewrite Hbuf.
  set (d := rd_data r). set (n := Nat.min (length d) buf_size).
  assert (Hn : length (take n d) = n) by (rewrite length_take; lia).
  split.
  - rewrite length_app, Hn, length_drop. lia.
  - rewrite take_app_length' by (symmetry; exact Hn).
    destruct (Nat.le_gt_cases (length d) buf_size) as [Hle | Hgt].
    + rewrite !take_ge by lia. reflexivity.
    + replace n with buf_size by lia. reflexivity.
Qed.

Lemma listen_loop_eof buf s rest close :
  length buf = buf_size -> at_eof s ->
  listen_loop buf (s :: rest) close = last_turn s close.
Proof.
  intros Hbuf Heof. destruct (Read_buf (ls_read s) buf Hbuf) as [_ Hchunk].
  cbn [listen_loop]. destruct (Read (ls_read s) buf) as [n buf'].
  cbn [fst snd] in Hchunk. rewrite Hchunk.
  unfold at_eof in Heof. rewrite Heof.
  unfold last_turn, closing, chunk. destruct close; cbn [fst snd]; reflexivity.
Qed.

Lemma listen_loop_turn buf s rest close :
  length buf = buf_size -> ~ at_eof s ->
  exists buf', length buf' = buf_size /\
    listen_loop buf (s :: rest) close =
      (turn_events s ++ (listen_loop buf' rest close).1,
       (listen_loop buf' rest close).2).
Proof.
  intros Hbuf Hne. destruct (Read_buf (ls_read s) buf Hbuf) as [Hlen Hchunk].
  cbn [listen_loop]. destruct (Read (ls_read s) buf) as [n buf'].
  cbn [fst snd] in Hlen, Hchunk. exists buf'. split; [exact Hlen |].
  rewrite Hchunk. unfold at_eof in Hne. unfold turn_events, chunk.
  destruct (listen_loop buf' rest close) as [t o]. cbn [fst snd].
  destruct (rd_err (ls_read s)) as [[| msg] |]; [congruence | |]; cbn [log_if].
  - rewrite <- !app_comm_cons, <- app_assoc. reflexivity.
  - rewrite app_nil_r. reflexivity.
Qed.

(** The loop up to and including the first end-of-input. *)
Lemma listen_loop_until_eof chunks last rest close buf :
  length buf = buf_size ->
  Forall (fun s => ~ at_eof s) chunks -> at_eof last ->
  listen_loop buf (chunks ++ last :: rest) close =
    (concat (map turn_events chunks) ++ (last_turn last close).1,
     (last_turn last close).2).
Proof.
  intros Hbuf Hchunks Hlast. revert buf Hbuf.
  induction Hchunks as [| s chunks Hs _ IH]; intros buf Hbuf.
  - cbn [app map concat]. rewrite (listen_loop_eof _ _ _ _ Hbuf Hlast).
    reflexivity.
  - rewrite <- app_comm_cons.
    destruct (listen_loop_turn buf s (chunks ++ last :: rest) close Hbuf Hs)
      as (buf' & Hbuf' & ->).
    rewrite (IH buf' Hbuf'). cbn [fst snd map concat].
    rewrite app_assoc. reflexivity.
Qed.

(** The loop while no end-of-input is seen. *)
Lemma listen_loop_no_eof chunks close buf :
  length buf = buf_size ->
  Forall (fun s => ~ at_eof s) chunks ->
  listen_loop buf chunks close = (concat (map turn_events chunks), Blocked).
Proof.
  intros Hbuf Hchunks. revert buf Hbuf.
  induction Hchunks as [| s chunks Hs _ IH]; intros buf Hbuf; [reflexivity |].
  destruct (listen_loop_turn buf s chunks close Hbuf Hs) as (buf' & Hbuf' & ->).
  rewrite (IH buf' Hbuf'). reflexivity.
Qed.

Lemma buf_length : length (replicate buf_size Byte.x00) = buf_size.
Proof. apply length_replicate. Qed.

(** Every script either never reaches end-of-input or has a first turn that
    does. *)
Lemma first_eof script :
  Forall (fun s => ~ at_eof s) script \/
  exists chunks last rest,
    script = chunks ++ last :: rest /\
    Forall (fun s => ~ at_eof s) chunks /\ at_eof last.
Proof.
  induction script as [| s script IH]; [left; constructor |].
  destruct (decide (at_eof s)) as [Hs | Hs].
  - right. exists [], s, script. repeat split; [constructor | exact Hs].
  - destruct IH as [IH | (chunks & last & rest & -> & Hc & Hl)].
    + left. constructor; assumption.
    + right. exists (s :: chunks), last, rest.
      repeat split; [constructor; assumption | exact Hl].
Qed.

Lemma sent_audio_app t1 t2 : sent_audio (t1 ++ t2) = sent_audio t1 ++ sent_audio t2.
Proof. apply omap_app. Qed.

Lemma close_sends_app t1 t2 :
  close_sends (t1 ++ t2) = close_sends t1 ++ close_sends t2.
Proof. apply omap_app. Qed.

Lemma log_if_quiet o format :
  sent_audio (log_if o format) = [] /\ close_sends (log_if o format) = [] /\
  forwarded_alts (log_if o format) = [] /\
  Forall (fun e => is_fatal_event e = false) (log_if o format).
Proof. destruct o; cbn; repeat split; repeat constructor. Qed.

Lemma turn_events_audio s :
  sent_audio (turn_events s) = [chunk s] /\ close_sends (turn_events s) = [].
Proof.
  unfold turn_events. split.
  - change (sent_audio (?e :: ?t)) with (chunk s :: sent_audio t) at 1.
    rewrite sent_audio_app.
    rewrite (proj1 (log_if_quiet _ _)), (proj1 (log_if_quiet _ _)). reflexivity.
  - change (close_sends (?e :: ?t)) with (close_sends t) at 1.
    rewrite close_sends_app.
    destruct (log_if_quiet (ls_send s) "Could not send audio: %v") as (_ & -> & _).
    destruct (log_if_quiet (rd_err (ls_read s)) "Could not read from stdin: %v")
      as (_ & -> & _).
    reflexivity.
Qed.

Lemma turns_audio chunks :
  sent_audio (concat (map turn_events chunks)) = map chunk chunks /\
  close_sends (concat (map turn_events chunks)) = [].
Proof.
  induction chunks as [| s chunks [IHa IHc]]; [split; reflexivity |].
  cbn [map concat]. rewrite sent_audio_app, close_sends_app, IHa, IHc.
  destruct (turn_events_audio s) as [-> ->]. split; reflexivity.
Qed.

End Ingester.

(** The loop on small inputs. *)
Example listen_two_bytes_then_eof :
  startListeningStdin [two_bytes; eof_read] None
    = ([Send [Byte.x01; Byte.x02]; Send []; CloseSend], Returned).
Proof. vm_compute. reflexivity. Qed.

Example listen_errors_are_logged :
  startListeningStdin
    [ {| ls_read := {| rd_data := []; rd_err := Some (err "EIO") |};
         ls_send := Some (err "unavailable") |} ] None
    = ([Send [];
        Log_Printf "Could not send audio: %v" (ArgErr (err "unavailable"));
        Log_Printf "Could not read from stdin: %v" (ArgErr (err "EIO"))],
       Blocked).
Proof. vm_compute. reflexivity. Qed.

(** C1.  For every sequence of input chunks ending in end-of-input, the
    ingester calls [CloseSend] exactly once; every chunk has been sent
    before that call ([pre] holds one audio message per read, in order);
    no audio message follows it ([post] holds none); and the loop is left:
    the function returns, or, if [CloseSend] itself fails, the process
    exits. *)
Theorem ingester_closes_once_after_all_chunks
    (chunks : list listen_step) (last : listen_step) (close : option error) :
  Forall (fun s => ~ at_eof s) chunks -> at_eof last ->
  exists pre post,
    (startListeningStdin (chunks ++ [last]) close).1 = pre ++ CloseSend :: post /\
    sent_audio pre = map chunk (chunks ++ [last]) /\
    close_sends pre = [] /\ close_sends post = [] /\ sent_audio post = [] /\
    length (close_sends (startListeningStdin (chunks ++ [last]) close).1) = 1%nat /\
    (startListeningStdin (chunks ++ [last]) close).2 <> Blocked /\
    (close = None -> (startListeningStdin (chunks ++ [last]) close).2 = Returned).
Proof.
  intros Hchunks Hlast. unfold startListeningStdin.
  rewrite (listen_loop_until_eof chunks last [] close _ buf_length Hchunks Hlast).
  cbn [fst snd last_turn].
  exists (concat (map turn_events chunks) ++
            Send (chunk last) :: log_if (ls_send last) "Could not send audio: %v"),
         (match close with
          | Some e => [Log_Fatalf "Could not close stream: %v" (ArgErr e)]
          | None => []
          end).
  destruct (turns_audio chunks) as [Ha Hc].
  destruct (log_if_quiet (ls_send last) "Could not send audio: %v")
    as (Hla & Hlc & _).
  assert (Hpre_a : sent_audio (concat (map turn_events chunks) ++
            Send (chunk last) :: log_if (ls_send last) "Could not send audio: %v")
          = map chunk (chunks ++ [last])).
  { rewrite sent_audio_app, Ha, map_app.
    change (sent_audio (Send ?a :: ?t)) with (a :: sent_audio t).
    rewrite Hla. reflexivity. }
  assert (Hpre_c : close_sends (concat (map turn_events chunks) ++
            Send (chunk last) :: log_if (ls_send last) "Could not send audio: %v")
          = []).
  { rewrite close_sends_app, Hc.
    change (close_sends (Send ?a :: ?t)) with (close_sends t).
    rewrite Hlc. reflexivity. }
  assert (Heq : concat (map turn_events chunks) ++
      Send (chunk last) :: log_if (ls_send last) "Could not send audio: %v"
        ++ (closing close).1
    = (concat (map turn_events chunks) ++
        Send (chunk last) :: log_if (ls_send last) "Could not send audio: %v")
      ++ CloseSend :: match close with
          | Some e => [Log_Fatalf "Could not close stream: %v" (ArgErr e)]
          | None => []
          end).
  { rewrite <- app_assoc, <- app_comm_cons. destruct close; reflexivity. }
  rewrite Heq. split; [reflexivity |].
  split; [exact Hpre_a |]. split; [exact Hpre_c |].
  split; [destruct close; reflexivity |].
  split; [destruct close; reflexivity |].
  split.
  - rewrite close_sends_app, Hpre_c. destruct close; reflexivity.
  - destruct close; cbn; split; congruence.
Qed.

Lemma ingester_closes_once_after_all_chunks_witness :
  exists pre post,
    (startListeningStdin ([two_bytes; two_bytes; two_bytes] ++ [eof_read]) None).1
      = pre ++ CloseSend :: post /\
    sent_audio pre = map chunk ([two_bytes; two_bytes; two_bytes] ++ [eof_read]) /\
    close_sends pre = [] /\ close_sends post = [] /\ sent_audio post = [] /\
    length (close_sends
      (startListeningStdin ([two_bytes; two_bytes; two_bytes] ++ [eof_read]) None).1)
      = 1%nat /\
    (startListeningStdin ([two_bytes; two_bytes; two_bytes] ++ [eof_read]) None).2
      <> Blocked /\
    (@None error = None ->
     (startListeningStdin ([two_bytes; two_bytes; two_bytes] ++ [eof_read]) None).2
       = Returned).
Proof.
  apply (ingester_closes_once_after_all_chunks
           [two_bytes; two_bytes; two_bytes] eof_read None).
  - repeat constructor; unfold at_eof; cbn; discriminate.
  - reflexivity.
Defined.

(** C2, as the claim states it, fails: on the zero-length input the
    ingester does send an audio-content message. *)
Lemma zero_length_input_sends_a_message :
  ~ (sent_audio (startListeningStdin [eof_read] None).1 = []).
Proof. vm_compute. discriminate. Qed.

(** C2, amended.  On a zero-length input (the first read returns no bytes
    and end-of-input) the ingester sends exactly one audio-content message,
    which carries no audio bytes, then calls [CloseSend] once and stops;
    it puts nothing on the alternatives channel, and a receiver whose stream
    then ends forwards no alternative either. *)
Theorem zero_length_input_one_empty_message
    (send close : option error) (script : list recv_result) :
  let s := {| ls_read := {| rd_data := []; rd_err := Some io_EOF |};
              ls_send := send |} in
  startListeningStdin [s] close =
    (Send [] :: log_if send "Could not send audio: %v" ++ (closing close).1,
     (closing close).2) /\
  sent_audio (startListeningStdin [s] close).1 = [[]] /\
  close_sends (startListeningStdin [s] close).1 = [tt] /\
  forwarded_alts (startListeningStdin [s] close).1 = [] /\
  (startListeningStdin [s] close).2 <> Blocked /\
  forwarded_alts (startReceivingStream (RecvErr io_EOF :: script)).1 = [].
Proof.
  intros s.
  assert (H : startListeningStdin [s] close =
    (Send [] :: log_if send "Could not send audio: %v" ++ (closing close).1,
     (closing close).2)).
  { unfold startListeningStdin.
    rewrite (listen_loop_eof _ s [] close buf_length); reflexivity. }
  rewrite H. cbn [fst snd].
  split; [reflexivity |].
  destruct send, close; cbn; repeat split; congruence.
Qed.

(** C5, as the claim states it, fails: the ingester does end the whole
    process, when [CloseSend] fails at end-of-input (line 84). *)
Lemma ingester_exits_on_failed_close :
  ~ (forall script close,
       kills_process (startListeningStdin script close).2 = false).
Proof.
  intros H. specialize (H [eof_read] (Some (err "transport is closing"))).
  vm_compute in H. discriminate.
Qed.

(** C5, amended.  The ingester ends the process in one case only: it has
    read end-of-input and [CloseSend] fails.  A read error other than
    end-of-input and a send error are logged and the loop goes on to the
    next turn ([turn_events] holds the send and the log lines of a turn);
    the loop is left only at end-of-input. *)
Theorem ingester_fatal_only_on_failed_close
    (script : list listen_step) (close : option error) :
  let r := startListeningStdin script close in
  (r.2 = Fatal <-> Exists at_eof script /\ close <> None) /\
  (r.2 = Returned <-> Exists at_eof script /\ close = None) /\
  (r.2 = Blocked <-> Forall (fun s => ~ at_eof s) script) /\
  r.2 <> Panicked /\
  (forall chunks rest,
     script = chunks ++ rest -> Forall (fun s => ~ at_eof s) chunks ->
     exists t, r.1 = concat (map turn_events chunks) ++ t) /\
  (forall s, Forall (fun e => is_fatal_event e = false) (turn_events s)).
Proof.
  cbn zeta.
  assert (Hturn : forall s,
    Forall (fun e => is_fatal_event e = false) (turn_events s)).
  { intros s. unfold turn_events. constructor; [reflexivity |].
    apply Forall_app. split; apply log_if_quiet. }
  assert (Hprefix : forall chunks rest,
    script = chunks ++ rest -> Forall (fun s => ~ at_eof s) chunks ->
    exists t, (startListeningStdin script close).1
              = concat (map turn_events chunks) ++ t).
  { intros chunks rest -> Hc. unfold startListeningStdin.
    generalize (replicate buf_size Byte.x00), buf_length.
    induction Hc as [| s chunks Hs _ IH]; intros buf Hbuf.
    - eexists. reflexivity.
    - rewrite <- app_comm_cons.
      destruct (listen_loop_turn buf s (chunks ++ rest) close Hbuf Hs)
        as (buf' & Hbuf' & ->).
      destruct (IH buf' Hbuf') as [t Ht]. exists t.
      cbn [fst map concat]. rewrite Ht, app_assoc. reflexivity. }
  destruct (first_eof script) as [Hno | (chunks & last & rest & Heq & Hc & Hl)].
  - assert (Hnex : ~ Exists at_eof script).
    { rewrite Exists_exists. intros (s & Hin & Hs).
      rewrite Forall_forall in Hno. exact (Hno s Hin Hs). }
    unfold startListeningStdin in *.
    rewrite (listen_loop_no_eof script close _ buf_length Hno) in *.
    cbn [fst snd]. repeat split; try congruence; tauto.
  - assert (Hex : Exists at_eof script).
    { subst script. apply Exists_app. right. constructor. exact Hl. }
    assert (Hnall : ~ Forall (fun s => ~ at_eof s) script).
    { intros Hall. rewrite Exists_exists in Hex. destruct Hex as (s & Hin & Hs).
      rewrite Forall_forall in Hall. exact (Hall s Hin Hs). }
    assert (Hout : (startListeningStdin script close).2 = (closing close).2).
    { subst script. unfold startListeningStdin.
      rewrite (listen_loop_until_eof chunks last rest close _ buf_length Hc Hl).
      reflexivity. }
    rewrite Hout.
    destruct close; cbn [closing snd]; repeat split; try congruence; try tauto.
    intros [_ Hclose]. discriminate Hclose.
Qed.

(** ** The transcript receiver *)

Section Receiver.

Implicit Types (result : option StreamingRecognitionResult)
  (resp : StreamingRecognizeResponse) (script pre rest : list recv_result).

Lemma forwarded_alts_app t1 t2 :
  forwarded_alts (t1 ++ t2) = forwarded_alts t1 ++ forwarded_alts t2.
Proof. apply omap_app. Qed.

Lemma printed_app t1 t2 : printed (t1 ++ t2) = printed t1 ++ printed t2.
Proof. apply omap_app. Qed.

Lemma forward_result_alts result :
  forwarded_alts (forward_result result) = GetAlternatives result.
Proof.
  unfold forward_result.
  induction (GetAlternatives result) as [| alt alts IH]; [reflexivity |].
  cbn [map concat]. rewrite forwarded_alts_app, IH. reflexivity.
Qed.

Lemma forward_result_printed result :
  printed (forward_result result) = map Transcript (GetAlternatives result).
Proof.
  unfold forward_result.
  induction (GetAlternatives result) as [| alt alts IH]; [reflexivity |].
  cbn [map concat]. rewrite printed_app, IH. reflexivity.
Qed.

Lemma forward_results_app rs1 rs2 :
  forward_results (rs1 ++ rs2) = forward_results rs1 ++ forward_results rs2.
Proof. unfold forward_results. rewrite map_app, concat_app. reflexivity. Qed.

Lemma forward_results_alts rs :
  forwarded_alts (forward_results rs) = concat (map GetAlternatives rs).
Proof.
  unfold forward_results. induction rs as [| r rs IH]; [reflexivity |].
  cbn [map concat]. rewrite forwarded_alts_app, forward_result_alts, IH.
  reflexivity.
Qed.

Lemma forward_results_printed rs :
  printed (forward_results rs)
    = map Transcript (concat (map GetAlternatives rs)).
Proof.
  unfold forward_results. induction rs as [| r rs IH]; [reflexivity |].
  cbn [map concat]. rewrite printed_app, forward_result_printed, IH, map_app.
  reflexivity.
Qed.

Lemma receive_healthy resp rest :
  Error resp = None ->
  startReceivingStream (RecvResp resp :: rest) =
    (forward_results (Results resp) ++ (startReceivingStream rest).1,
     (startReceivingStream rest).2).
Proof.
  intros H. cbn [startReceivingStream]. rewrite H.
  destruct (startReceivingStream rest). reflexivity.
Qed.

Lemma receive_past pre rest :
  Forall healthy pre ->
  startReceivingStream (pre ++ rest) =
    (concat (map response_events pre) ++ (startReceivingStream rest).1,
     (startReceivingStream rest).2).
Proof.
  induction 1 as [| r pre Hr _ IH].
  - cbn. destruct (startReceivingStream rest). reflexivity.
  - destruct r as [e | resp]; [destruct Hr |]. cbn in Hr.
    rewrite <- app_comm_cons, (receive_healthy _ _ Hr), IH.
    cbn [fst snd map concat response_events]. rewrite app_assoc. reflexivity.
Qed.

Lemma receive_broken x rest :
  broken x -> startReceivingStream (x :: rest) = (fatal_events x, Fatal).
Proof.
  destruct x as [[| msg] | resp]; cbn; intros H; try congruence.
  destruct (Error resp); [reflexivity | congruence].
Qed.

(** A script is healthy throughout, or has a first element that is not. *)
Lemma first_unhealthy script :
  Forall healthy script \/
  exists pre x rest,
    script = pre ++ x :: rest /\ Forall healthy pre /\
    (end_of_stream x \/ broken x).
Proof.
  induction script as [| r script IH]; [left; constructor |].
  assert (Hr : healthy r \/ end_of_stream r \/ broken r).
  { destruct r as [[| msg] | resp]; cbn.
    - right. left. reflexivity.
    - right. right. discriminate.
    - destruct (Error resp); [right; right; discriminate | left; reflexivity]. }
  destruct Hr as [Hr | Hr].
  - destruct IH as [IH | (pre & x & rest & -> & Hpre & Hx)].
    + left. constructor; assumption.
    + right. exists (r :: pre), x, rest.
      repeat split; [constructor; assumption | exact Hx].
  - right. exists [], r, script. repeat split; [constructor | exact Hr].
Qed.

Lemma healthy_not_stop x : healthy x -> ~ (end_of_stream x \/ broken x).
Proof.
  destruct x as [e | resp]; cbn; [tauto |].
  unfold end_of_stream. intros H [H' | H']; congruence.
Qed.

End Receiver.

Example receive_ola_then_limit :
  startReceivingStream
    [RecvResp ola_response;
     RecvResp {| Error := Some {| Code := 11; Message := "limit" |};
                 Results := [ola_result] |};
     RecvResp ola_response]
  = ([Fmt_Println "Transcript alternatives: " "ola";
      AltsSend {| Transcript := "ola" |};
      Fmt_Println "Transcript alternatives: " "ola!";
      AltsSend {| Transcript := "ola!" |};
      Log_Print limit_warning;
      Log_Fatalf "Could not recognize: %v"
        (ArgStatus {| Code := 11; Message := "limit" |})],
     Fatal).
Proof. vm_compute. reflexivity. Qed.

(** C3.  For every recognition result holding K alternatives, the receiver
    prints the transcript of each and puts exactly those K alternatives on
    the alternatives channel, in the order of the result; this is what the
    loop does with the result wherever it stands in a response. *)
Theorem receiver_forwards_K_in_order
    (result : option StreamingRecognitionResult) (K : nat) :
  length (GetAlternatives result) = K ->
  forwarded_alts (forward_result result) = GetAlternatives result /\
  length (forwarded_alts (forward_result result)) = K /\
  printed (forward_result result) = map Transcript (GetAlternatives result) /\
  forall before after rest,
    (startReceivingStream
       (RecvResp {| Error := None; Results := before ++ result :: after |}
          :: rest)).1
    = forward_results before ++ forward_result result ++
      forward_results after ++ (startReceivingStream rest).1.
Proof.
  intros HK. rewrite forward_result_alts, forward_result_printed.
  repeat split; [exact HK |].
  intros before after rest. rewrite receive_healthy by reflexivity.
  cbn [fst Results]. rewrite forward_results_app.
  change (forward_results (result :: after))
    with (forward_result result ++ forward_results after).
  rewrite <- !app_assoc. reflexivity.
Qed.

Lemma receiver_forwards_K_in_order_witness :
  forwarded_alts (forward_result ola_result) = GetAlternatives ola_result /\
  length (forwarded_alts (forward_result ola_result)) = 2%nat /\
  printed (forward_result ola_result)
    = map Transcript (GetAlternatives ola_result) /\
  forall before after rest,
    (startReceivingStream
       (RecvResp {| Error := None; Results := before ++ ola_result :: after |}
          :: rest)).1
    = forward_results before ++ forward_result ola_result ++
      forward_results after ++ (startReceivingStream rest).1.
Proof. apply (receiver_forwards_K_in_order ola_result 2). reflexivity. Defined.

(** C4, as the claim states it, fails: for a result with two alternatives
    the receiver forwards both, not the top one alone. *)
Lemma receiver_forwards_more_than_the_top :
  ~ (forwarded_alts
       (startReceivingStream [RecvResp ola_response; RecvErr io_EOF]).1
     = [ {| Transcript := "ola" |} ]).
Proof. vm_compute. discriminate. Qed.

(** C4, amended.  The receiver extracts every alternative of each
    recognition result, the top one first; it prints each and forwards
    each on the alternatives channel, so a run of error-free responses
    yields all their alternatives in order.  One item is forwarded for a
    result exactly when that result holds exactly one alternative. *)
Theorem receiver_forwards_all_alternatives
    (resps : list StreamingRecognizeResponse) (rest : list recv_result) :
  Forall (fun resp => Error resp = None) resps ->
  forwarded_alts (startReceivingStream (map RecvResp resps ++ rest)).1
    = all_alternatives resps ++ forwarded_alts (startReceivingStream rest).1 /\
  printed (startReceivingStream (map RecvResp resps ++ rest)).1
    = map Transcript (all_alternatives resps)
        ++ printed (startReceivingStream rest).1 /\
  forall result,
    head (forwarded_alts (forward_result result))
      = head (GetAlternatives result) /\
    (length (forwarded_alts (forward_result result)) = 1%nat
       <-> length (GetAlternatives result) = 1%nat).
Proof.
  intros Hresps. split; [| split].
  - induction Hresps as [| resp resps Hresp _ IH]; [reflexivity |].
    cbn [map app]. rewrite (receive_healthy _ _ Hresp). cbn [fst].
    rewrite forwarded_alts_app, forward_results_alts, IH.
    unfold all_alternatives. cbn [map concat]. rewrite app_assoc. reflexivity.
  - induction Hresps as [| resp resps Hresp _ IH]; [reflexivity |].
    cbn [map app]. rewrite (receive_healthy _ _ Hresp). cbn [fst].
    rewrite printed_app, forward_results_printed, IH.
    unfold all_alternatives. cbn [map concat].
    rewrite map_app, app_assoc. reflexivity.
  - intros result. rewrite forward_result_alts. split; reflexivity.
Qed.

Lemma receiver_forwards_all_alternatives_witness :
  forwarded_alts
    (startReceivingStream (map RecvResp [ola_response] ++ [RecvErr io_EOF])).1
    = all_alternatives [ola_response]
        ++ forwarded_alts (startReceivingStream [RecvErr io_EOF]).1 /\
  printed
    (startReceivingStream (map RecvResp [ola_response] ++ [RecvErr io_EOF])).1
    = map Transcript (all_alternatives [ola_response])
        ++ printed (startReceivingStream [RecvErr io_EOF]).1 /\
  forall result,
    head (forwarded_alts (forward_result result))
      = head (GetAlternatives result) /\
    (length (forwarded_alts (forward_result result)) = 1%nat
       <-> length (GetAlternatives result) = 1%nat).
Proof.
  apply (receiver_forwards_all_alternatives [ola_response] [RecvErr io_EOF]).
  repeat constructor.
Defined.

(** C6.  The receiver leaves its loop by returning exactly when the stream
    reports end-of-stream after responses it went past; it ends the whole
    process exactly when, after such responses, a receive fails with any
    other error or a response carries an error.  It does so at once: the
    fatal log line is the last thing it does, and nothing of the failing
    response or of what follows is forwarded.  A status with code 3 or 11
    (the 60-second limit) is first logged as a warning and is fatal all the
    same. *)
Theorem receiver_returns_on_eof_dies_on_error (script : list recv_result) :
  let r := startReceivingStream script in
  (r.2 = Returned <->
     exists pre rest, script = pre ++ RecvErr io_EOF :: rest /\ Forall healthy pre) /\
  (r.2 = Fatal <->
     exists pre x rest,
       script = pre ++ x :: rest /\ Forall healthy pre /\ broken x) /\
  (r.2 = Blocked <-> Forall healthy script) /\
  r.2 <> Panicked /\
  (forall pre x rest,
     script = pre ++ x :: rest -> Forall healthy pre -> broken x ->
     r.1 = concat (map response_events pre) ++ fatal_events x /\
     exists t format a,
       fatal_events x = t ++ [Log_Fatalf format a] /\ forwarded_alts t = []) /\
  (forall st results,
     exceeded_limit st = true ->
     fatal_events (RecvResp {| Error := Some st; Results := results |})
       = [Log_Print limit_warning;
          Log_Fatalf "Could not recognize: %v" (ArgStatus st)]).
Proof.
  cbn zeta.
  assert (Hstop : forall pre x rest,
    Forall healthy pre -> end_of_stream x \/ broken x ->
    startReceivingStream (pre ++ x :: rest) =
      (concat (map response_events pre) ++
         (if decide (x = RecvErr io_EOF) then [] else fatal_events x),
       if decide (x = RecvErr io_EOF) then Returned else Fatal)).
  { intros pre x rest Hpre Hx. rewrite (receive_past _ _ Hpre).
    destruct Hx as [-> | Hx].
    - destruct (decide (RecvErr io_EOF = RecvErr io_EOF)); [| congruence].
      reflexivity.
    - rewrite (receive_broken _ _ Hx).
      destruct (decide (x = RecvErr io_EOF)) as [-> |]; [| reflexivity].
      cbn in Hx. congruence. }
  assert (Hsplit : forall pre x rest pre' x' rest',
    pre ++ x :: rest = pre' ++ x' :: rest' ->
    Forall healthy pre -> Forall healthy pre' ->
    (end_of_stream x \/ broken x) -> (end_of_stream x' \/ broken x') -> x = x').
  { intros pre x rest pre' x' rest' Heq Hpre Hpre' Hx Hx'.
    revert pre' Heq Hpre'.
    induction Hpre as [| y pre Hy _ IH]; intros pre' Heq Hpre'.
    - destruct Hpre' as [| y' pre' Hy' _]; cbn in Heq; [congruence |].
      injection Heq as -> _. destruct (healthy_not_stop _ Hy' Hx).
    - destruct Hpre' as [| y' pre' Hy' Hpre']; cbn in Heq.
      + injection Heq as <- _. destruct (healthy_not_stop _ Hy Hx').
      + injection Heq as _ Heq. apply (IH pre' Heq Hpre'). }
  assert (Hfatal_shape : forall x, broken x ->
    exists t format a,
      fatal_events x = t ++ [Log_Fatalf format a] /\ forwarded_alts t = []).
  { intros [e | resp] Hx; cbn in Hx |- *.
    - exists [], "Cannot stream results: %v", (ArgErr e). split; reflexivity.
    - destruct (Error resp) as [st |]; [| congruence].
      unfold recognition_failed.
      exists (if exceeded_limit st then [Log_Print limit_warning] else []),
             "Could not recognize: %v", (ArgStatus st).
      split; [reflexivity | destruct (exceeded_limit st); reflexivity]. }
  assert (Hlimit : forall st results,
    exceeded_limit st = true ->
    fatal_events (RecvResp {| Error := Some st; Results := results |})
      = [Log_Print limit_warning;
         Log_Fatalf "Could not recognize: %v" (ArgStatus st)]).
  { intros st results H. cbn. unfold recognition_failed. rewrite H. reflexivity. }
  assert (Hbroken_neq : forall x, broken x -> x <> RecvErr io_EOF).
  { intros x Hx ->. cbn in Hx. congruence. }
  destruct (first_unhealthy script) as [Hall | (pre & x & rest & Heq & Hpre & Hx)].
  - assert (Hrun := receive_past script [] Hall). rewrite app_nil_r in Hrun.
    rewrite Hrun. cbn [fst snd startReceivingStream].
    assert (Hno : forall pre' x' rest',
      script = pre' ++ x' :: rest' -> ~ (end_of_stream x' \/ broken x')).
    { intros pre' x' rest' ->. apply healthy_not_stop.
      apply Forall_app in Hall as [_ Hall]. inversion Hall; assumption. }
    split; [| split; [| split; [| split; [| split]]]].
    + split; [congruence |]. intros (pre' & rest' & Heq' & _).
      destruct (Hno _ _ _ Heq'). left. reflexivity.
    + split; [congruence |]. intros (pre' & x' & rest' & Heq' & _ & Hx').
      destruct (Hno _ _ _ Heq'). right. exact Hx'.
    + tauto.
    + congruence.
    + intros pre' x' rest' Heq' _ Hx'. destruct (Hno _ _ _ Heq'). tauto.
    + exact Hlimit.
  - assert (Hnall : ~ Forall healthy script).
    { intros Hall. subst script. apply Forall_app in Hall as [_ Hall].
      inversion Hall as [| ? ? Hh _]; subst. exact (healthy_not_stop _ Hh Hx). }
    assert (Huniq : forall pre' x' rest',
      script = pre' ++ x' :: rest' -> Forall healthy pre' ->
      (end_of_stream x' \/ broken x') -> x = x').
    { intros pre' x' rest' Heq' Hpre' Hx'. subst script.
      exact (Hsplit _ _ _ _ _ _ Heq' Hpre Hpre' Hx Hx'). }
    assert (Hrun := Hstop pre x rest Hpre Hx). rewrite <- Heq in Hrun.
    split; [| split; [| split; [| split; [| split]]]].
    + rewrite Hrun. cbn [snd]. split.
      * intros Hret. destruct (decide (x = RecvErr io_EOF)) as [-> |]; [| congruence].
        exists pre, rest. split; assumption.
      * intros (pre' & rest' & Heq' & Hpre').
        rewrite (Huniq _ _ _ Heq' Hpre') by (left; reflexivity).
        destruct (decide (RecvErr io_EOF = RecvErr io_EOF)); congruence.
    + rewrite Hrun. cbn [snd]. split.
      * intros Hf. destruct (decide (x = RecvErr io_EOF)) as [| Hne]; [congruence |].
        exists pre, x, rest. repeat split; try assumption.
        destruct Hx as [Hx | Hx]; [contradiction | exact Hx].
      * intros (pre' & x' & rest' & Heq' & Hpre' & Hx').
        rewrite (Huniq _ _ _ Heq' Hpre') by (right; exact Hx').
        destruct (decide (x' = RecvErr io_EOF)) as [He |]; [| reflexivity].
        destruct (Hbroken_neq _ Hx' He).
    + rewrite Hrun. cbn [snd]. split; [| tauto].
      destruct (decide (x = RecvErr io_EOF)); congruence.
    + rewrite Hrun. cbn [snd]. destruct (decide (x = RecvErr io_EOF)); congruence.
    + intros pre' x' rest' Heq' Hpre' Hx'. split; [| apply Hfatal_shape; exact Hx'].
      rewrite Heq', (Hstop pre' x' rest' Hpre') by (right; exact Hx').
      destruct (decide (x' = RecvErr io_EOF)) as [He |]; [| reflexivity].
      destruct (Hbroken_neq _ Hx' He).
    + exact Hlimit.
Qed.

(** ** The translator *)

Section Translator.

Variable code : string.

Implicit Types (s : translate_step) (script pre rest : list translate_step).

Lemma forwarded_texts_app t1 t2 :
  forwarded_texts (t1 ++ t2) = forwarded_texts t1 ++ forwarded_texts t2.
Proof. apply omap_app. Qed.

Lemma translate_turn s rest t0 :
  translates s -> tr_translations s !! 0%nat = Some t0 ->
  startTranslating code (s :: rest) =
    (translate_calls code s ++
       [Fmt_Printf "Translation: %v\n" (Text t0); TextsSend (Text t0)] ++
       (startTranslating code rest).1,
     (startTranslating code rest).2).
Proof.
  intros (Hc & Hp & Ht) H0. cbn [startTranslating].
  rewrite Hc, Hp, Ht. unfold forward_translation. rewrite H0.
  destruct (startTranslating code rest). reflexivity.
Qed.

Lemma translate_panics s rest :
  translates s -> tr_translations s = [] ->
  startTranslating code (s :: rest) = (translate_calls code s, Panicked).
Proof.
  intros (Hc & Hp & Ht) H0. cbn [startTranslating].
  rewrite Hc, Hp, Ht, H0. reflexivity.
Qed.


Lemma translator_never_returns script :
  (startTranslating code script).2 <> Returned.
Proof.
  induction script as [| s script IH]; cbn [startTranslating]; [discriminate |].
  destruct (tr_client s); [discriminate |].
  destruct (tr_parse s); [discriminate |].
  destruct (tr_translate s); [discriminate |].
  destruct (forward_translation (tr_translations s)); [| discriminate].
  destruct (startTranslating code script). exact IH.
Qed.

End Translator.

Example translate_empty_response_panics :
  startTranslating "pt-BR"
    [ {| tr_alt := {| Transcript := "ola" |};
         tr_client := None; tr_parse := None;
         tr_translations := []; tr_translate := None |}; echo_ola ]
  = ([AltsRecv {| Transcript := "ola" |}; Translate_NewClient;
      Language_Parse "pt-BR"; Client_Translate ["ola"] "pt-BR"],
     Panicked).
Proof. vm_compute. reflexivity. Qed.



(** C10.  The translator indexes [translations[0]] with no length check.
    If every translation call that succeeds returns a non-empty list, the
    index is in bounds at every turn and the translator never panics; a
    successful call that returns an empty list makes the index out of
    bounds, and the translator panics there. *)
Theorem translator_first_translation_index
    (code : string) (script : list translate_step) :
  Forall (fun s => tr_translate s = None -> tr_translations s <> []) script ->
  (startTranslating code script).2 <> Panicked /\
  Forall (fun s => tr_translate s = None ->
                   is_Some (tr_translations s !! 0%nat)) script /\
  (forall s rest,
     translates s -> tr_translations s = [] ->
     tr_translations s !! 0%nat = None /\
     startTranslating code (s :: rest) = (translate_calls code s, Panicked)).
Proof.
  intros Hpre. split; [| split].
  - induction Hpre as [| s script Hs _ IH]; cbn [startTranslating];
      [discriminate |].
    destruct (tr_client s); [discriminate |].
    destruct (tr_parse s); [discriminate |].
    destruct (tr_translate s); [discriminate |].
    specialize (Hs eq_refl). unfold forward_translation.
    destruct (tr_translations s) as [| t0 ts]; [congruence |]. cbn.
    destruct (startTranslating code script). exact IH.
  - eapply Forall_impl; [exact Hpre |]. cbn. intros s Hs Ht.
    specialize (Hs Ht). destruct (tr_translations s); [congruence |].
    eexists. reflexivity.
  - intros s rest Hs H0. split; [rewrite H0; reflexivity |].
    apply translate_panics; assumption.
Qed.

Lemma translator_first_translation_index_witness :
  (startTranslating "pt-BR" [echo_ola; echo_ola]).2 <> Panicked /\
  Forall (fun s => tr_translate s = None ->
                   is_Some (tr_translations s !! 0%nat)) [echo_ola; echo_ola] /\
  (forall s rest,
     translates s -> tr_translations s = [] ->
     tr_translations s !! 0%nat = None /\
     startTranslating "pt-BR" (s :: rest)
       = (translate_calls "pt-BR" s, Panicked)).
Proof.
  apply (translator_first_translation_index "pt-BR" [echo_ola; echo_ola]).
  repeat constructor; cbn; discriminate.
Defined.

(** ** The speaker *)

Section Speaker.

Variable lang : string.

Implicit Types (fs : files) (s : speak_step) (script : list speak_step).

Lemma speak_turn fs s script :
  succeeds s ->
  speak_loop lang fs (s :: script) =
    (speak_events lang s
       ++ (speak_loop lang (<[filename := sp_audio s]> fs) script).1.1,
     (speak_loop lang (<[filename := sp_audio s]> fs) script).1.2,
     (speak_loop lang (<[filename := sp_audio s]> fs) script).2).
Proof.
  intros [Hsynth Hwrite]. cbn [speak_loop]. rewrite Hsynth, Hwrite.
  cbn [WriteFile].
  destruct (speak_loop lang (<[filename := sp_audio s]> fs) script) as [[t fs'] o].
  reflexivity.
Qed.

Lemma speak_all fs script :
  Forall succeeds script ->
  speak_loop lang fs script =
    (concat (map (speak_events lang) script),
     match last script with
     | Some s => <[filename := sp_audio s]> fs
     | None => fs
     end,
     Blocked).
Proof.
  intros Hall. revert fs.
  induction Hall as [| s script Hs _ IH]; intros fs; [reflexivity |].
  rewrite (speak_turn _ _ _ Hs), IH. cbn [fst snd map concat].
  rewrite last_cons. destruct (last script) as [s' |]; [| reflexivity].
  rewrite insert_insert_eq. reflexivity.
Qed.

(** One synthesis request per text taken from the channel, whatever
    happens afterwards. *)
Lemma speak_one_request_per_text fs script :
  synthesis_requests (speak_loop lang fs script).1.1
    = received_texts (speak_loop lang fs script).1.1.
Proof.
  revert fs. induction script as [| s script IH]; intros fs; [reflexivity |].
  cbn [speak_loop]. destruct (sp_synth s); [reflexivity |].
  destruct (WriteFile fs filename (sp_audio s) (sp_write s)) as [fs' [e |]];
    [reflexivity |].
  specialize (IH fs'). destruct (speak_loop lang fs' script) as [[t fs''] o].
  cbn [fst snd] in *. unfold synthesis_requests, received_texts in *.
  cbn. f_equal. exact IH.
Qed.

Lemma speak_events_projections script :
  received_texts (concat (map (speak_events lang) script)) = map sp_text script /\
  synthesis_requests (concat (map (speak_events lang) script))
    = map sp_text script /\
  file_writes (concat (map (speak_events lang) script))
    = map (fun s => (filename, sp_audio s)) script.
Proof.
  induction script as [| s script (IH1 & IH2 & IH3)]; [repeat split |].
  cbn [map concat]. unfold received_texts, synthesis_requests, file_writes in *.
  rewrite !omap_app, IH1, IH2, IH3. repeat split.
Qed.

Lemma speaker_never_returns fs script client :
  (startSpeaking lang client fs script).2 <> Returned /\
  (startSpeaking lang client fs script).2 <> Panicked.
Proof.
  destruct client; [split; discriminate |]. cbn [startSpeaking].
  revert fs. induction script as [| s script IH]; intros fs;
    cbn [speak_loop]; [split; discriminate |].
  destruct (sp_synth s); [split; discriminate |].
  destruct (WriteFile fs filename (sp_audio s) (sp_write s)) as [fs' [e |]];
    [split; discriminate |].
  specialize (IH fs'). destruct (speak_loop lang fs' script) as [[t fs''] o].
  exact IH.
Qed.

End Speaker.

(** C8.  For every translated text the speaker takes from the channel it
    issues exactly one synthesis request, for that text.  When synthesis
    and write succeed, the audio returned is written, each time, to the one
    path [output.mp3], replacing what the file held: after any sequence of
    successful turns the file holds exactly the audio of the latest one,
    and no other file has changed. *)
Theorem speaker_last_write_wins
    (lang : string) (fs : files) (script : list speak_step) :
  Forall succeeds script ->
  let r := startSpeaking lang None fs script in
  received_texts r.1.1 = map sp_text script /\
  synthesis_requests r.1.1 = map sp_text script /\
  file_writes r.1.1 = map (fun s => (filename, sp_audio s)) script /\
  r.1.2 = match last script with
          | Some s => <[filename := sp_audio s]> fs
          | None => fs
          end /\
  (forall s, last script = Some s -> r.1.2 !! filename = Some (sp_audio s)) /\
  (forall f, f <> filename -> r.1.2 !! f = fs !! f) /\
  (forall client fs' script',
     synthesis_requests (startSpeaking lang client fs' script').1.1
       = received_texts (startSpeaking lang client fs' script').1.1).
Proof.
  intros Hall. cbn zeta. cbn [startSpeaking]. rewrite (speak_all lang fs script Hall).
  cbn [fst snd].
  destruct (speak_events_projections lang script) as (H1 & H2 & H3).
  split; [exact H1 |]. split; [exact H2 |]. split; [exact H3 |].
  split; [reflexivity |]. split; [| split].
  - intros s ->. apply lookup_insert_eq.
  - intros f Hf. destruct (last script); [| reflexivity].
    apply lookup_insert_ne. congruence.
  - intros [e |] fs' script'; [reflexivity |].
    apply speak_one_request_per_text.
Qed.

Lemma speaker_last_write_wins_witness :
  received_texts
    (startSpeaking "pt-BR" None ∅
       [say "ola" [Byte.x01]; say "ola!" [Byte.x02; Byte.x03]]).1.1
    = ["ola"; "ola!"] /\
  (startSpeaking "pt-BR" None ∅
     [say "ola" [Byte.x01]; say "ola!" [Byte.x02; Byte.x03]]).1.2 !! filename
    = Some [Byte.x02; Byte.x03].
Proof.
  assert (Hall : Forall succeeds
            [say "ola" [Byte.x01]; say "ola!" [Byte.x02; Byte.x03]]).
  { repeat constructor. }
  destruct (speaker_last_write_wins "pt-BR" ∅ _ Hall)
    as (Hrecv & _ & _ & _ & Hlast & _).
  split; [exact Hrecv |].
  exact (Hlast (say "ola!" [Byte.x02; Byte.x03]) eq_refl).
Defined.

(** ** The process *)

Section Process.

(** The table [can_stop] lists every way the four loops stop. *)
Lemma can_stop_listen script close :
  (startListeningStdin script close).2 = Blocked \/
  can_stop listen (startListeningStdin script close).2 = true.
Proof.
  unfold startListeningStdin.
  destruct (first_eof script) as [Hno | (chunks & last & rest & -> & Hc & Hl)].
  - rewrite (listen_loop_no_eof _ _ _ buf_length Hno). left. reflexivity.
  - rewrite (listen_loop_until_eof _ _ _ _ _ buf_length Hc Hl).
    right. destruct close; reflexivity.
Qed.

Lemma can_stop_receive script :
  (startReceivingStream script).2 = Blocked \/
  can_stop receive (startReceivingStream script).2 = true.
Proof.
  induction script as [| [[| msg] | resp] script IH]; cbn;
    [left | right | right |]; try reflexivity.
  destruct (Error resp); [right; reflexivity |].
  destruct (startReceivingStream script). exact IH.
Qed.

Lemma can_stop_translate code script :
  (startTranslating code script).2 = Blocked \/
  can_stop translate (startTranslating code script).2 = true.
Proof.
  induction script as [| s script IH]; cbn [startTranslating];
    [left; reflexivity |].
  destruct (tr_client s); [right; reflexivity |].
  destruct (tr_parse s); [right; reflexivity |].
  destruct (tr_translate s); [right; reflexivity |].
  destruct (forward_translation (tr_translations s)); [| right; reflexivity].
  destruct (startTranslating code script). exact IH.
Qed.

Lemma can_stop_speak lang client fs script :
  (startSpeaking lang client fs script).2 = Blocked \/
  can_stop speak (startSpeaking lang client fs script).2 = true.
Proof.
  destruct client; [right; reflexivity |]. cbn [startSpeaking].
  revert fs. induction script as [| s script IH]; intros fs;
    cbn [speak_loop]; [left; reflexivity |].
  destruct (sp_synth s); [right; reflexivity |].
  destruct (WriteFile fs filename (sp_audio s) (sp_write s)) as [fs' [e |]];
    [right; reflexivity |].
  specialize (IH fs'). destruct (speak_loop lang fs' script) as [[t fs''] o].
  exact IH.
Qed.

Lemma set_stage_wait f s x :
  (forall s', f s' <> Sending ch_wait) -> x <> Sending ch_wait ->
  forall s', set_stage f s x s' <> Sending ch_wait.
Proof.
  intros Hf Hx s'. unfold set_stage. destruct (decide (s' = s)); auto.
Qed.

Lemma no_send_on_wait s : sends_on s ch_wait = false.
Proof. destruct s; reflexivity. Qed.

Lemma stuck_launched : stuck launched.
Proof.
  split; [discriminate |]. split; [intros s; discriminate |].
  intros t; discriminate.
Qed.

Lemma stuck_step p q : stuck p -> step p q -> stuck q.
Proof.
  intros (Hpc & Hwait & Hst) Hstep. unfold stuck, wait_unused in *.
  destruct Hstep as [p _ _ | p s _ _ Hs | p _ Hend | p s c _ _ Hc
                     | p s c _ _ _ | p s r c _ _ _ | p s o _ _ Ho | p _];
    cbn [pc stage_at status].
  - repeat split; [congruence | exact Hwait | congruence].
  - destruct (Hwait s Hs).
  - contradiction.
  - repeat split; [exact Hpc | | congruence].
    apply set_stage_wait; [exact Hwait |].
    intros Heq. injection Heq as ->. rewrite no_send_on_wait in Hc. discriminate.
  - repeat split; [exact Hpc | | congruence].
    apply set_stage_wait; [exact Hwait | discriminate].
  - repeat split; [exact Hpc | | congruence].
    repeat apply set_stage_wait; [exact Hwait | discriminate | discriminate].
  - repeat split; [exact Hpc | |].
    + apply set_stage_wait; [exact Hwait | discriminate].
    + intros t. destruct (kills_process o) eqn:Hk; [| congruence].
      intros [= <-]. split; assumption.
  - repeat split; [exact Hpc | exact Hwait |]. intros t [= <-]. exact I.
Qed.

Lemma stuck_reachable p q : stuck p -> rtc step p q -> stuck q.
Proof. intros Hp Hrun. induction Hrun; eauto using stuck_step. Qed.

(** Once inside [<-wait], [main] stays there. *)
Lemma waits_forever p q :
  stuck p -> pc p = at_recv_wait -> rtc step p q -> pc q = at_recv_wait.
Proof.
  intros Hp Hpc Hrun. induction Hrun as [| p q r Hstep _ IH]; [exact Hpc |].
  apply IH; [exact (stuck_step _ _ Hp Hstep) |].
  destruct Hp as (_ & Hwait & _).
  destruct Hstep as [p _ Hmk | p s _ _ Hs | p _ Hend | | | | |];
    cbn [pc]; solve [exact Hpc | congruence | destruct (Hwait s Hs)].
Qed.

End Process.

(** C9.  Once the four loops are started, [main] makes [wait] and blocks in
    the receive on it.  No loop was given [wait], so nothing is ever sent
    on it: in every state the process can reach, [main] has not got past
    the receive and the process has not exited with success; if the process
    is gone, a stage ended it (a fatal log call or a panic) or it was
    terminated from outside; and once [main] is in the receive it is there
    in every later state. *)
Theorem main_blocks_forever (p : process) :
  reachable p ->
  pc p <> at_end /\
  status p <> Some exit_success /\
  (forall t, status p = Some t ->
     t = killed \/
     exists s o, t = died_in s o /\ kills_process o = true /\ can_stop s o = true) /\
  (forall s, stage_at p s <> Sending ch_wait) /\
  (pc p = at_recv_wait -> forall q, rtc step p q -> pc q = at_recv_wait) /\
  reachable waiting.
Proof.
  intros Hp. assert (Hstuck := stuck_reachable _ _ stuck_launched Hp).
  destruct Hstuck as (Hpc & Hwait & Hst).
  split; [exact Hpc |]. split; [| split; [| split; [| split]]].
  - intros Hex. exact (Hst _ Hex).
  - intros [| s o |] Ht; specialize (Hst _ Ht); cbn in Hst.
    + destruct Hst.
    + right. exists s, o. split; [reflexivity | exact Hst].
    + left. reflexivity.
  - exact Hwait.
  - intros Hat q Hrun.
    apply (waits_forever p q); [repeat split; assumption | exact Hat | exact Hrun].
  - eapply rtc_l; [| apply rtc_refl].
    exact (main_make_wait launched eq_refl eq_refl).
Qed.

Lemma main_blocks_forever_witness :
  reachable waiting /\ pc waiting <> at_end /\
  status waiting <> Some exit_success.
Proof.
  assert (Hrun : reachable waiting).
  { eapply rtc_l; [| apply rtc_refl].
    exact (main_make_wait launched eq_refl eq_refl). }
  split; [exact Hrun |].
  destruct (main_blocks_forever waiting Hrun) as (Hpc & Hst & _).
  split; assumption.
Defined.

(** * Further properties of the code *)

(** ** The audio ingester, continued *)

Section IngesterMore.

Implicit Types (s last : listen_step) (script chunks rest : list listen_step).

Lemma turns_taken_no_eof script :
  Forall (fun s => ~ at_eof s) script -> turns_taken script = script.
Proof.
  induction 1 as [| s script Hs _ IH]; [reflexivity |].
  cbn [turns_taken]. rewrite decide_False by exact Hs. rewrite IH. reflexivity.
Qed.

Lemma turns_taken_eof chunks last rest :
  Forall (fun s => ~ at_eof s) chunks -> at_eof last ->
  turns_taken (chunks ++ last :: rest) = chunks ++ [last].
Proof.
  intros Hc Hl. induction Hc as [| s chunks Hs _ IH].
  - cbn. rewrite decide_True by exact Hl. reflexivity.
  - cbn [app turns_taken]. rewrite decide_False by exact Hs. rewrite IH.
    reflexivity.
Qed.

Lemma sent_audio_run script close :
  sent_audio (startListeningStdin script close).1 = map chunk (turns_taken script).
Proof.
  unfold startListeningStdin.
  destruct (first_eof script) as [Hno | (chunks & last & rest & -> & Hc & Hl)].
  - rewrite (listen_loop_no_eof _ _ _ buf_length Hno), (turns_taken_no_eof _ Hno).
    apply turns_audio.
  - rewrite (listen_loop_until_eof _ _ _ _ _ buf_length Hc Hl).
    rewrite (turns_taken_eof _ _ _ Hc Hl). cbn [fst last_turn].
    rewrite sent_audio_app, (proj1 (turns_audio chunks)), map_app.
    change (sent_audio (Send ?a :: ?t)) with (a :: sent_audio t).
    rewrite sent_audio_app.
    rewrite (proj1 (log_if_quiet (ls_send last) "Could not send audio: %v")).
    destruct close; reflexivity.
Qed.

Lemma turns_taken_reads script script' :
  map ls_read script' = map ls_read script ->
  map chunk (turns_taken script') = map chunk (turns_taken script).
Proof.
  revert script'. induction script as [| s script IH]; intros [| s' script'] Heq;
    try discriminate; [reflexivity |].
  cbn [map] in Heq. injection Heq as Hs Heq. cbn [turns_taken].
  assert (Hc : chunk s' = chunk s) by (unfold chunk; rewrite Hs; reflexivity).
  destruct (decide (at_eof s')) as [He' | He'], (decide (at_eof s)) as [He | He];
    unfold at_eof in *; rewrite Hs in He'; try contradiction.
  - cbn [map]. rewrite Hc. reflexivity.
  - cbn [map]. rewrite Hc, (IH _ Heq). reflexivity.
Qed.

End IngesterMore.

(** X1.  The ingester sends one audio message per read it makes, in order,
    up to and with the read that reports end-of-input, and each message
    carries at most 1024 bytes.  What is sent depends on the reads alone:
    a send that fails is not repeated and holds back no later message. *)
Theorem ingester_sends_one_message_per_read
    (script : list listen_step) (close : option error) :
  sent_audio (startListeningStdin script close).1 = map chunk (turns_taken script) /\
  Forall (fun a => (length a <= buf_size)%nat)
         (sent_audio (startListeningStdin script close).1) /\
  forall script' close',
    map ls_read script' = map ls_read script ->
    sent_audio (startListeningStdin script' close').1
      = sent_audio (startListeningStdin script close).1.
Proof.
  split; [apply sent_audio_run |]. split.
  - rewrite sent_audio_run. apply Forall_map, Forall_forall. intros s _.
    unfold compose, chunk. rewrite length_take. lia.
  - intros script' close' Heq. rewrite !sent_audio_run.
    apply turns_taken_reads. exact Heq.
Qed.

(** X2.  When no read delivers more than the buffer holds, the audio
    messages put end to end are exactly the bytes read, up to end-of-input:
    no byte is lost or repeated, and no byte left in the buffer by an
    earlier, longer read gets into a later message. *)
Theorem ingester_forwards_the_bytes_read
    (script : list listen_step) (close : option error) :
  Forall (fun s => (length (rd_data (ls_read s)) <= buf_size)%nat) script ->
  concat (sent_audio (startListeningStdin script close).1)
    = concat (map (fun s => rd_data (ls_read s)) (turns_taken script)).
Proof.
  intros Hfit. rewrite sent_audio_run. f_equal.
  induction Hfit as [| s script Hs _ IH]; [reflexivity |].
  assert (Hc : chunk s = rd_data (ls_read s)).
  { unfold chunk. apply take_ge. exact Hs. }
  cbn [turns_taken]. destruct (decide (at_eof s)); cbn [map].
  - rewrite Hc. reflexivity.
  - rewrite Hc, IH. reflexivity.
Qed.

Lemma ingester_forwards_the_bytes_read_witness :
  concat (sent_audio
    (startListeningStdin
       [two_bytes;
        {| ls_read := {| rd_data := [Byte.x03]; rd_err := None |};
           ls_send := Some (err "unavailable") |};
        eof_read] None).1)
  = [Byte.x01; Byte.x02; Byte.x03].
Proof.
  apply (ingester_forwards_the_bytes_read
           [two_bytes;
            {| ls_read := {| rd_data := [Byte.x03]; rd_err := None |};
               ls_send := Some (err "unavailable") |};
            eof_read] None).
  repeat constructor; cbn; unfold buf_size; lia.
Defined.

(** X3.  After the read that reports end-of-input the ingester reads no
    more: whatever the input would deliver afterwards changes nothing. *)
Theorem ingester_reads_nothing_after_eof
    (pre : list listen_step) (last : listen_step) (rest : list listen_step)
    (close : option error) :
  at_eof last ->
  startListeningStdin (pre ++ last :: rest) close
    = startListeningStdin (pre ++ [last]) close.
Proof.
  intros Hl. unfold startListeningStdin.
  generalize (replicate buf_size Byte.x00).
  induction pre as [| s pre IH]; intros buf.
  - cbn [app listen_loop]. destruct (Read (ls_read last) buf) as [n buf'].
    unfold at_eof in Hl. rewrite Hl. reflexivity.
  - cbn [app listen_loop]. destruct (Read (ls_read s) buf) as [n buf'].
    rewrite (IH buf'). reflexivity.
Qed.

Lemma ingester_reads_nothing_after_eof_witness :
  startListeningStdin ([two_bytes] ++ eof_read :: [two_bytes; two_bytes]) None
    = startListeningStdin ([two_bytes] ++ [eof_read]) None.
Proof.
  apply (ingester_reads_nothing_after_eof
           [two_bytes] eof_read [two_bytes; two_bytes] None).
  reflexivity.
Defined.

(** ** The transcript receiver, continued *)

Lemma warnings_forward_results rs : warnings (forward_results rs) = [].
Proof.
  unfold forward_results, forward_result, warnings.
  induction rs as [| r rs IH]; [reflexivity |].
  cbn [map concat]. rewrite omap_app, IH, app_nil_r.
  induction (GetAlternatives r) as [| alt alts IHa]; [reflexivity |].
  cbn [map concat]. rewrite omap_app, IHa. reflexivity.
Qed.

Lemma exceeded_limit_codes st :
  exceeded_limit st = true <-> Code st = 3%Z \/ Code st = 11%Z.
Proof.
  unfold exceeded_limit. rewrite orb_true_iff, !Z.eqb_eq. reflexivity.
Qed.

(** X4.  A response without error whose results hold no alternative (no
    result at all, a nil result, or results with empty lists) is passed
    over in silence: nothing is printed or forwarded and the loop goes on
    to the next receive. *)
Theorem receiver_passes_over_empty_results
    (resp : StreamingRecognizeResponse) (rest : list recv_result) :
  Error resp = None ->
  Forall (fun r => GetAlternatives r = []) (Results resp) ->
  startReceivingStream (RecvResp resp :: rest) = startReceivingStream rest.
Proof.
  intros Herr Hempty. rewrite (receive_healthy _ _ Herr).
  assert (H : forward_results (Results resp) = []).
  { unfold forward_results, forward_result.
    induction Hempty as [| r rs Hr _ IH]; [reflexivity |].
    cbn [map concat]. rewrite Hr, IH. reflexivity. }
  rewrite H. destruct (startReceivingStream rest). reflexivity.
Qed.

Lemma receiver_passes_over_empty_results_witness :
  startReceivingStream
    [RecvResp {| Error := None;
                 Results := [None; Some {| Alternatives := [] |}] |};
     RecvResp ola_response]
  = startReceivingStream [RecvResp ola_response].
Proof.
  apply (receiver_passes_over_empty_results
           {| Error := None; Results := [None; Some {| Alternatives := [] |}] |}
           [RecvResp ola_response]).
  - reflexivity.
  - repeat constructor.
Defined.

(** X5.  Once a receive reports end-of-stream, fails, or returns a response
    that carries an error, the receiver receives no more: what the stream
    would deliver afterwards changes nothing. *)
Theorem receiver_receives_nothing_after_stop
    (pre : list recv_result) (x : recv_result) (rest : list recv_result) :
  end_of_stream x \/ broken x ->
  startReceivingStream (pre ++ x :: rest) = startReceivingStream (pre ++ [x]).
Proof.
  intros Hx. induction pre as [| [e | resp] pre IH].
  - destruct x as [[| msg] | resp]; cbn; try reflexivity.
    destruct (Error resp) eqn:He; [reflexivity |].
    destruct Hx as [Hx | Hx]; [discriminate Hx | cbn in Hx; congruence].
  - reflexivity.
  - cbn [app startReceivingStream]. rewrite IH. reflexivity.
Qed.

Lemma receiver_receives_nothing_after_stop_witness :
  startReceivingStream
    ([RecvResp ola_response] ++ RecvErr (err "reset") :: [RecvResp ola_response])
  = startReceivingStream ([RecvResp ola_response] ++ [RecvErr (err "reset")]).
Proof.
  apply (receiver_receives_nothing_after_stop
           [RecvResp ola_response] (RecvErr (err "reset"))
           [RecvResp ola_response]).
  right. discriminate.
Defined.

(** X6.  The warning about the 60-second limit is logged at most once, and
    exactly when the first response that carries an error has status code
    3 or 11; an error response with any other code ends the process with
    no warning. *)
Theorem receiver_warns_on_codes_3_and_11 (script : list recv_result) :
  (warnings (startReceivingStream script).1 = [limit_warning] \/
   warnings (startReceivingStream script).1 = []) /\
  (warnings (startReceivingStream script).1 = [limit_warning] <->
   exists pre st results rest,
     script = pre ++ RecvResp {| Error := Some st; Results := results |} :: rest /\
     Forall healthy pre /\ (Code st = 3%Z \/ Code st = 11%Z)).
Proof.
  induction script as [| [e | resp] script [IHor IH]].
  - split; [right; reflexivity |]. split; [discriminate |].
    intros (pre & st & results & rest & Heq & _). destruct pre; discriminate.
  - assert (Hw : warnings (startReceivingStream (RecvErr e :: script)).1 = []).
    { destruct e; reflexivity. }
    rewrite Hw. split; [right; reflexivity |]. split; [discriminate |].
    intros (pre & st & results & rest & Heq & Hpre & _).
    destruct Hpre as [| y pre Hy _]; cbn in Heq; [discriminate |].
    injection Heq as <- _. destruct Hy.
  - cbn [startReceivingStream]. destruct (Error resp) as [st |] eqn:Herr.
    + cbn [fst]. unfold recognition_failed.
      destruct (exceeded_limit st) eqn:Hlim.
      * split; [left; reflexivity |]. split; [| reflexivity]. intros _.
        exists [], st, (Results resp), script. split; [| split].
        -- destruct resp as [er rs]. cbn in Herr. subst er. reflexivity.
        -- constructor.
        -- apply exceeded_limit_codes. exact Hlim.
      * split; [right; reflexivity |]. split; [discriminate |].
        intros (pre & st' & results & rest & Heq & Hpre & Hcode).
        destruct Hpre as [| y pre Hy _]; cbn in Heq.
        -- injection Heq as ->. cbn in Herr. injection Herr as ->.
           apply exceeded_limit_codes in Hcode. congruence.
        -- injection Heq as <- _. cbn in Hy. congruence.
    + destruct (startReceivingStream script) as [t o]. cbn [fst] in *.
      unfold warnings in *. rewrite omap_app.
      fold (warnings (forward_results (Results resp))).
      rewrite warnings_forward_results. cbn [app].
      split; [exact IHor |]. rewrite IH. split.
      * intros (pre & st & results & rest & -> & Hpre & Hcode).
        exists (RecvResp resp :: pre), st, results, rest.
        split; [reflexivity |]. split; [| exact Hcode].
        constructor; [exact Herr | exact Hpre].
      * intros (pre & st & results & rest & Heq & Hpre & Hcode).
        destruct Hpre as [| y pre Hy Hpre]; cbn in Heq.
        -- injection Heq as ->. cbn in Herr. discriminate.
        -- injection Heq as _ ->. exists pre, st, results, rest.
           split; [reflexivity |]. split; assumption.
Qed.

(** ** The translator, continued *)

Section TranslatorMore.

Variable code : string.

Implicit Types (s : translate_step) (script pre rest : list translate_step).

Lemma forward_translation_first (l : list Translation) :
  forward_translation (take 1 l) = forward_translation l.
Proof. destruct l; reflexivity. Qed.

Lemma forwards_not_fails s : forwards s -> ~ fails s.
Proof. intros [(Hc & Hp & Ht) _] [H | [H | H]]; congruence. Qed.

Lemma forwards_not_empty s :
  forwards s -> ~ (translates s /\ tr_translations s = []).
Proof. intros [_ Hne] [_ He]. congruence. Qed.

Lemma fails_not_translates s : fails s -> ~ translates s.
Proof. intros [H | [H | H]] (Hc & Hp & Ht); congruence. Qed.

(** The three kinds of turn, and what each does to the way the loop stops. *)
Lemma translate_head s script :
  (fails s /\ (startTranslating code (s :: script)).2 = Fatal) \/
  (translates s /\ tr_translations s = [] /\
   (startTranslating code (s :: script)).2 = Panicked) \/
  (forwards s /\
   (startTranslating code (s :: script)).2 = (startTranslating code script).2).
Proof.
  cbn [startTranslating]. unfold fails, forwards, translates.
  destruct (tr_client s); [left; split; [left; discriminate | reflexivity] |].
  destruct (tr_parse s);
    [left; split; [right; left; discriminate | reflexivity] |].
  destruct (tr_translate s);
    [left; split; [right; right; discriminate | reflexivity] |].
  destruct (tr_translations s) as [| t0 ts]; cbn.
  - right. left. repeat split.
  - right. right. destruct (startTranslating code script).
    repeat split. discriminate.
Qed.

(** A first turn of some kind, seen from the head of the script. *)
Lemma first_turn_cons (P : translate_step -> Prop) s script :
  (exists pre x rest, s :: script = pre ++ x :: rest /\ Forall forwards pre /\ P x)
  <-> P s \/
      (forwards s /\
       exists pre x rest, script = pre ++ x :: rest /\ Forall forwards pre /\ P x).
Proof.
  split.
  - intros (pre & x & rest & Heq & Hpre & Hx).
    destruct Hpre as [| y pre Hy Hpre]; cbn in Heq; injection Heq as -> Heq.
    + left. exact Hx.
    + right. split; [exact Hy |]. exists pre, x, rest. repeat split; assumption.
  - intros [Hs | (Hs & pre & x & rest & -> & Hpre & Hx)].
    + exists [], s, script. repeat split; [constructor | exact Hs].
    + exists (s :: pre), x, rest.
      repeat split; [constructor; assumption | exact Hx].
Qed.

End TranslatorMore.

(** X7.  Of a translation response the translator uses the first element
    alone: a run is the same whether the service returns one translation
    or several with the same first one. *)
Theorem translator_uses_the_first_translation_only
    (code : string) (script : list translate_step) :
  startTranslating code (map keep_first script) = startTranslating code script.
Proof.
  induction script as [| s script IH]; [reflexivity |].
  cbn [map startTranslating keep_first tr_alt tr_client tr_parse tr_translate
       tr_translations].
  rewrite forward_translation_first, IH. reflexivity.
Qed.

(** X8.  The translator never returns.  Its loop is running as long as
    every turn forwards a translation; the process is ended by a fatal log
    call at the first turn in which a call fails, and by a panic at the
    first turn whose calls succeed with an empty response. *)
Theorem translator_stops_only_by_ending_the_process
    (code : string) (script : list translate_step) :
  (startTranslating code script).2 <> Returned /\
  ((startTranslating code script).2 = Blocked <-> Forall forwards script) /\
  ((startTranslating code script).2 = Fatal <->
     exists pre s rest,
       script = pre ++ s :: rest /\ Forall forwards pre /\ fails s) /\
  ((startTranslating code script).2 = Panicked <->
     exists pre s rest,
       script = pre ++ s :: rest /\ Forall forwards pre /\
       (translates s /\ tr_translations s = [])).
Proof.
  induction script as [| s script (IHr & IHb & IHf & IHp)].
  - cbn. repeat split; try discriminate; try constructor.
    + intros (pre & s & rest & Heq & _). destruct pre; discriminate.
    + intros (pre & s & rest & Heq & _). destruct pre; discriminate.
  - rewrite (first_turn_cons fails), (first_turn_cons
      (fun s => translates s /\ tr_translations s = [])).
    rewrite Forall_cons, <- IHb, <- IHf, <- IHp.
    destruct (translate_head code s script)
      as [[Hs ->] | [(Hs & He & ->) | [Hs ->]]].
    + assert (Hnf := fun H => forwards_not_fails s H Hs).
      assert (Hnt := fails_not_translates s Hs).
      repeat split; try discriminate; try tauto.
    + assert (Hnf := fun H => forwards_not_empty s H (conj Hs He)).
      assert (Hnt := fun H => fails_not_translates s H Hs).
      repeat split; try discriminate; try tauto.
    + assert (Hnf := forwards_not_fails s Hs).
      assert (Hne := forwards_not_empty s Hs).
      repeat split; try exact IHr; try tauto.
      all: destruct Hs as [(? & ? & ?) ?]; assumption.
Qed.

(** X9.  The translator creates a new translation client for every
    alternative it takes from the channel; the alternatives it takes are
    those of the script, in order; every translation request is for one
    text and the target language given at the start; and at most one
    alternative taken has no text forwarded for it, the one in hand when
    the process ends. *)
Theorem translator_one_client_per_alternative
    (code : string) (script : list translate_step) :
  let t := (startTranslating code script).1 in
  length (new_clients t) = length (received_alts t) /\
  received_alts t `prefix_of` map tr_alt script /\
  Forall (fun r => length r.1 = 1%nat /\ r.2 = code) (translate_requests t) /\
  (length (received_alts t) = length (forwarded_texts t) \/
   length (received_alts t) = S (length (forwarded_texts t))).
Proof.
  cbn zeta. induction script as [| s script (IHc & IHa & IHr & IHn)].
  - cbn. repeat split; [apply prefix_nil | constructor | left; reflexivity].
  - cbn [startTranslating map].
    destruct (tr_client s);
      [cbn; repeat split;
       [apply prefix_cons, prefix_nil | constructor | right; reflexivity] |].
    destruct (tr_parse s);
      [cbn; repeat split;
       [apply prefix_cons, prefix_nil | constructor | right; reflexivity] |].
    destruct (tr_translate s);
      [cbn; repeat split;
       [apply prefix_cons, prefix_nil | repeat constructor | right; reflexivity] |].
    unfold forward_translation.
    destruct (tr_translations s) as [| t0 ts];
      [cbn; repeat split;
       [apply prefix_cons, prefix_nil | repeat constructor | right; reflexivity] |].
    cbn [lookup list_lookup].
    destruct (startTranslating code script) as [t o]. cbn [fst] in *.
    unfold new_clients, received_alts, translate_requests, forwarded_texts in *.
    cbn. repeat split.
    + f_equal. exact IHc.
    + apply prefix_cons. exact IHa.
    + constructor; [split; reflexivity | exact IHr].
    + destruct IHn as [-> | ->]; [left | right]; reflexivity.
Qed.

(** ** The speaker, continued *)

Section SpeakerMore.

Variable lang : string.

Implicit Types (fs : files) (s : speak_step) (script pre rest : list speak_step).

(** The file system after a run of successful turns. *)
Lemma speak_past fs pre rest :
  Forall succeeds pre ->
  speak_loop lang fs (pre ++ rest) =
    let fs' := match last pre with
               | Some p => <[filename := sp_audio p]> fs
               | None => fs
               end in
    (concat (map (speak_events lang) pre) ++ (speak_loop lang fs' rest).1.1,
     (speak_loop lang fs' rest).1.2,
     (speak_loop lang fs' rest).2).
Proof.
  intros Hpre. revert fs. cbn zeta.
  induction Hpre as [| s pre Hs _ IH]; intros fs.
  - cbn. destruct (speak_loop lang fs rest) as [[t fs'] o]. reflexivity.
  - rewrite <- app_comm_cons, (speak_turn _ _ _ _ Hs), IH.
    cbn [fst snd map concat]. rewrite last_cons, <- app_assoc.
    destruct (last pre) as [p |]; [| reflexivity].
    rewrite insert_insert_eq. reflexivity.
Qed.

Lemma speak_loop_frame fs script f :
  f <> filename -> (speak_loop lang fs script).1.2 !! f = fs !! f.
Proof.
  intros Hf. revert fs. induction script as [| s script IH]; intros fs;
    [reflexivity |].
  cbn [speak_loop]. destruct (sp_synth s); [reflexivity |].
  assert (Hw : (WriteFile fs filename (sp_audio s) (sp_write s)).1 !! f = fs !! f).
  { destruct (sp_write s) as [| e [d |]]; cbn [WriteFile fst];
      try reflexivity; apply lookup_insert_ne; congruence. }
  destruct (WriteFile fs filename (sp_audio s) (sp_write s)) as [fs' [e |]];
    cbn [fst] in Hw; [exact Hw |].
  specialize (IH fs'). destruct (speak_loop lang fs' script) as [[t fs''] o].
  cbn [fst snd] in *. rewrite IH. exact Hw.
Qed.

Lemma speak_loop_blocked fs script :
  (speak_loop lang fs script).2 = Blocked <-> Forall succeeds script.
Proof.
  revert fs. induction script as [| s script IH]; intros fs.
  - split; [constructor | reflexivity].
  - rewrite Forall_cons. cbn [speak_loop]. unfold succeeds at 1.
    destruct (sp_synth s) as [e |];
      [split; [discriminate | intros [[H _] _]; discriminate] |].
    destruct (sp_write s) as [| e [d |]]; cbn [WriteFile];
      try (split; [discriminate | intros [[_ H] _]; discriminate]).
    specialize (IH (<[filename := sp_audio s]> fs)).
    destruct (speak_loop lang (<[filename := sp_audio s]> fs) script)
      as [[t fs'] o].
    cbn [snd] in *. rewrite IH. tauto.
Qed.

End SpeakerMore.

(** X10.  Whatever the speaker is given and however its calls end, it
    changes no file but [output.mp3]. *)
Theorem speaker_touches_no_other_file
    (lang : string) (client : option error) (fs : files)
    (script : list speak_step) (f : string) :
  f <> filename ->
  (startSpeaking lang client fs script).1.2 !! f = fs !! f.
Proof.
  intros Hf. destruct client; [reflexivity |]. apply speak_loop_frame. exact Hf.
Qed.

Lemma speaker_touches_no_other_file_witness :
  (startSpeaking "pt-BR" None {[ "notes.txt" := [Byte.x09] ]}
     [say "ola" [Byte.x01];
      {| sp_text := "ola!"; sp_audio := [Byte.x02]; sp_synth := None;
         sp_write := WriteFailed (err "disk full") (Some []) |}]).1.2
    !! "notes.txt"
  = ({[ "notes.txt" := [Byte.x09] ]} : files) !! "notes.txt".
Proof.
  apply (speaker_touches_no_other_file "pt-BR" None {[ "notes.txt" := [Byte.x09] ]}).
  discriminate.
Defined.

(** X11.  When synthesis fails the speaker ends the process without
    touching the file: after any number of successful turns the file still
    holds the audio of the last of them (or what it held at the start), and
    the text in hand is neither written nor confirmed. *)
Theorem speaker_failed_synthesis_keeps_the_file
    (lang : string) (fs : files) (pre : list speak_step) (s : speak_step)
    (rest : list speak_step) (e : error) :
  Forall succeeds pre -> sp_synth s = Some e ->
  startSpeaking lang None fs (pre ++ s :: rest) =
    (concat (map (speak_events lang) pre) ++
       [TextsRecv (sp_text s);
        Client_SynthesizeSpeech (synthesis_request (sp_text s) lang);
        Log_Fatal e],
     match last pre with
     | Some p => <[filename := sp_audio p]> fs
     | None => fs
     end,
     Fatal).
Proof.
  intros Hpre Hs. cbn [startSpeaking]. rewrite (speak_past lang fs pre _ Hpre).
  cbn zeta. cbn [speak_loop]. rewrite Hs. reflexivity.
Qed.

Lemma speaker_failed_synthesis_keeps_the_file_witness :
  (startSpeaking "pt-BR" None ∅
     ([say "ola" [Byte.x01]] ++
      {| sp_text := "ola!"; sp_audio := []; sp_synth := Some (err "quota");
         sp_write := WriteOk |} :: [say "ola" [Byte.x02]])).1.2 !! filename
  = Some [Byte.x01].
Proof.
  rewrite (speaker_failed_synthesis_keeps_the_file "pt-BR" ∅
             [say "ola" [Byte.x01]]
             {| sp_text := "ola!"; sp_audio := []; sp_synth := Some (err "quota");
                sp_write := WriteOk |}
             [say "ola" [Byte.x02]] (err "quota")).
  - reflexivity.
  - repeat constructor.
  - reflexivity.
Defined.

(** X12.  The speaker never returns and never panics.  Its loop is running
    exactly as long as its client was created and every synthesis and every
    write has succeeded; in every other case it has ended the process with
    a fatal log call. *)
Theorem speaker_stops_only_by_ending_the_process
    (lang : string) (client : option error) (fs : files)
    (script : list speak_step) :
  (startSpeaking lang client fs script).2 <> Returned /\
  (startSpeaking lang client fs script).2 <> Panicked /\
  ((startSpeaking lang client fs script).2 = Blocked <->
     client = None /\ Forall succeeds script) /\
  ((startSpeaking lang client fs script).2 = Fatal <->
     client <> None \/ ~ Forall succeeds script).
Proof.
  destruct (speaker_never_returns lang fs script client) as [Hr Hp].
  split; [exact Hr |]. split; [exact Hp |].
  assert (Hb : (startSpeaking lang client fs script).2 = Blocked <->
               client = None /\ Forall succeeds script).
  { destruct client as [e |]; cbn [startSpeaking snd].
    - split; [discriminate | intros [H _]; discriminate].
    - rewrite speak_loop_blocked. tauto. }
  split; [exact Hb |].
  destruct (startSpeaking lang client fs script).2 eqn:Ho; try congruence.
  - split; [discriminate |]. intros [H | H]; destruct Hb as [Hb _];
      specialize (Hb eq_refl); tauto.
  - split; [| reflexivity]. intros _.
    destruct client; [left; discriminate | right].
    intros Hall. destruct Hb as [_ Hb]. specialize (Hb (conj eq_refl Hall)).
    discriminate.
Qed.

(** ** The start of the program *)

Lemma main_start_result (a : setup_answers) :
  (main_start a).2 = match first_setup_error a with
                     | Some e => MainPanic e
                     | None => MainLaunched launched
                     end.
Proof.
  unfold main_start, setupSpeechStream, first_setup_error.
  destruct (su_client a); [reflexivity |].
  destruct (su_stream a); [reflexivity |].
  destruct (su_send a); reflexivity.
Qed.

(** X13.  [main] panics with the error of the first setup call that fails,
    and starts the four loops only when all three calls succeed.  A call
    is made only if those before it succeeded; and when it is the sending
    of the configuration that fails, [setupSpeechStream] returns the open
    stream together with the error, and [main] panics all the same. *)
Theorem main_panics_on_the_first_setup_error (a : setup_answers) :
  (main_start a).1 = (setupSpeechStream a).1 /\
  (setupSpeechStream a).2.2 = first_setup_error a /\
  ((main_start a).2 = MainLaunched launched <-> first_setup_error a = None) /\
  (forall e, (main_start a).2 = MainPanic e <-> first_setup_error a = Some e) /\
  (su_client a <> None -> (main_start a).1 = [Speech_NewClient]) /\
  (su_client a = None -> su_stream a <> None ->
   (main_start a).1 = [Speech_NewClient; Client_StreamingRecognize]) /\
  (forall e,
     su_client a = None -> su_stream a = None -> su_send a = Some e ->
     setupSpeechStream a =
       ([Speech_NewClient; Client_StreamingRecognize; SendConfig initial_config],
        (Some the_stream, Some e)) /\
     (main_start a).2 = MainPanic e).
Proof.
  rewrite main_start_result.
  unfold main_start, setupSpeechStream, first_setup_error.
  destruct (su_client a) as [e1 |], (su_stream a) as [e2 |],
    (su_send a) as [e3 |]; cbn;
    repeat split; intros; try congruence.
Qed.

(** X14.  Taken from its first line, the program never ends with success:
    either [main] panics in the setup, before any loop is started, or the
    loops are started and from then on [main] never gets past [<-wait]
    and the process never exits with status 0. *)
Theorem program_never_exits_with_success
    (a : setup_answers) (p q : process) :
  (main_start a).2 = MainLaunched p -> rtc step p q ->
  first_setup_error a = None /\ p = launched /\
  pc q <> at_end /\ status q <> Some exit_success.
Proof.
  rewrite main_start_result. intros Hstart Hrun.
  destruct (first_setup_error a); [discriminate |].
  injection Hstart as <-. split; [reflexivity |]. split; [reflexivity |].
  destruct (stuck_reachable _ _ stuck_launched Hrun) as (Hpc & _ & Hst).
  split; [exact Hpc |]. intros Hex. exact (Hst _ Hex).
Qed.

Lemma program_never_exits_with_success_witness :
  first_setup_error {| su_client := None; su_stream := None; su_send := None |}
    = None /\
  launched = launched /\
  pc waiting <> at_end /\ status waiting <> Some exit_success.
Proof.
  apply (program_never_exits_with_success
           {| su_client := None; su_stream := None; su_send := None |}
           launched waiting).
  - reflexivity.
  - eapply rtc_l; [| apply rtc_refl].
    exact (main_make_wait launched eq_refl eq_refl).
Defined.

(** ** The loops together *)

Section Pipeline.

Lemma receive_all_forwarded (resps : list StreamingRecognizeResponse)
    (rest : list recv_result) :
  Forall (fun resp => Error resp = None) resps ->
  forwarded_alts (startReceivingStream (map RecvResp resps ++ rest)).1
    = all_alternatives resps ++ forwarded_alts (startReceivingStream rest).1.
Proof.
  induction 1 as [| resp resps Hresp _ IH]; [reflexivity |].
  cbn [map app]. rewrite (receive_healthy _ _ Hresp). cbn [fst].
  rewrite forwarded_alts_app, forward_results_alts, IH.
  unfold all_alternatives. cbn [map concat]. rewrite app_assoc. reflexivity.
Qed.

Lemma translate_all code (script : list translate_step) :
  Forall forwards script ->
  startTranslating code script
    = (concat (map (translate_events code) script), Blocked).
Proof.
  induction 1 as [| s script [Hs Hne] _ IH]; [reflexivity |].
  destruct (tr_translations s) as [| t0 ts] eqn:Hts; [congruence |].
  rewrite (translate_turn code s script t0 Hs) by (rewrite Hts; reflexivity).
  rewrite IH. cbn [fst snd map concat]. unfold translate_events.
  rewrite Hts. cbn [lookup list_lookup]. rewrite <- !app_assoc. reflexivity.
Qed.

Lemma translate_events_projections code (script : list translate_step) :
  received_alts (concat (map (translate_events code) script))
    = map tr_alt script /\
  translate_requests (concat (map (translate_events code) script))
    = map (fun s => ([Transcript (tr_alt s)], code)) script /\
  forwarded_texts (concat (map (translate_events code) script))
    = omap translated_text script.
Proof.
  induction script as [| s script (IH1 & IH2 & IH3)]; [repeat split |].
  cbn [map concat omap].
  unfold received_alts, translate_requests, forwarded_texts in *.
  rewrite !omap_app, IH1, IH2, IH3.
  unfold translate_events, translated_text, translate_calls.
  destruct (tr_translations s) as [| t0 ts] eqn:Hts; cbn; rewrite ?Hts; cbn;
    (split; [| split]); reflexivity.
Qed.

Lemma forwards_translated (script : list translate_step) :
  Forall forwards script ->
  length (omap translated_text script) = length script.
Proof.
  induction 1 as [| s script [_ Hne] _ IH]; [reflexivity |].
  destruct (tr_translations s) as [| t0 ts] eqn:Hts; [congruence |].
  assert (Ht : translated_text s = Some (Text t0)).
  { unfold translated_text. rewrite Hts. reflexivity. }
  change (omap translated_text (s :: script))
    with (match translated_text s with
          | Some y => y :: omap translated_text script
          | None => omap translated_text script
          end).
  rewrite Ht. cbn [length]. rewrite IH. reflexivity.
Qed.

End Pipeline.

(** X15.  The loops composed as [main] wires them.  Let the stream deliver
    error-free responses and then end, let the translator take from [alts]
    what the receiver put there and forward a translation each time, and
    let the speaker take from [texts] what the translator put there and
    succeed each time.  Then every alternative of every result is sent to
    translation on its own, in order, with the target language; one
    synthesis request is made per alternative, for its translated text;
    and the file ends up with the audio of the last one. *)
Theorem pipeline_speaks_every_alternative
    (code lang : string) (fs : files)
    (resps : list StreamingRecognizeResponse)
    (tscript : list translate_step) (sscript : list speak_step) :
  Forall (fun resp => Error resp = None) resps ->
  map tr_alt tscript
    = forwarded_alts
        (startReceivingStream (map RecvResp resps ++ [RecvErr io_EOF])).1 ->
  Forall forwards tscript ->
  map sp_text sscript = forwarded_texts (startTranslating code tscript).1 ->
  Forall succeeds sscript ->
  received_alts (startTranslating code tscript).1 = all_alternatives resps /\
  translate_requests (startTranslating code tscript).1
    = map (fun a => ([Transcript a], code)) (all_alternatives resps) /\
  synthesis_requests (startSpeaking lang None fs sscript).1.1
    = omap translated_text tscript /\
  length sscript = length (all_alternatives resps) /\
  (forall s, last sscript = Some s ->
     (startSpeaking lang None fs sscript).1.2 !! filename = Some (sp_audio s)).
Proof.
  intros Hresps Halts Htr Htexts Hsp.
  rewrite (receive_all_forwarded _ _ Hresps) in Halts.
  cbn [startReceivingStream fst forwarded_alts omap] in Halts.
  rewrite app_nil_r in Halts.
  rewrite (translate_all code tscript Htr) in *. cbn [fst] in *.
  destruct (translate_events_projections code tscript) as (Hr & Hq & Hf).
  rewrite Hf in Htexts. rewrite Hr, Hq.
  cbn [startSpeaking]. rewrite (speak_all lang fs sscript Hsp). cbn [fst snd].
  destruct (speak_events_projections lang sscript) as (_ & Hsyn & _).
  rewrite Hsyn, Htexts. split; [exact Halts |]. split; [| split; [| split]].
  - rewrite <- Halts, <- list_fmap_compose. reflexivity.
  - reflexivity.
  - rewrite <- (length_map sp_text sscript), Htexts.
    rewrite (forwards_translated _ Htr), <- (length_map tr_alt tscript), Halts.
    reflexivity.
  - intros s ->. apply lookup_insert_eq.
Qed.

Lemma pipeline_speaks_every_alternative_witness :
  received_alts
    (startTranslating "pt-BR"
       [echo_ola;
        {| tr_alt := {| Transcript := "ola!" |};
           tr_client := None; tr_parse := None;
           tr_translations := [ {| Text := "oi!"; Source := "en"; Model := "" |} ];
           tr_translate := None |}]).1
    = all_alternatives [ola_response] /\
  (startSpeaking "pt-BR" None ∅
     [say "ola" [Byte.x01]; say "oi!" [Byte.x02]]).1.2 !! filename
    = Some [Byte.x02].
Proof.
  destruct (pipeline_speaks_every_alternative "pt-BR" "pt-BR" ∅
    [ola_response]
    [echo_ola;
     {| tr_alt := {| Transcript := "ola!" |};
        tr_client := None; tr_parse := None;
        tr_translations := [ {| Text := "oi!"; Source := "en"; Model := "" |} ];
        tr_translate := None |}]
    [say "ola" [Byte.x01]; say "oi!" [Byte.x02]])
    as (Hrecv & _ & _ & _ & Hfile).
  - repeat constructor.
  - reflexivity.
  - repeat constructor; discriminate.
  - reflexivity.
  - repeat constructor.
  - split; [exact Hrecv |]. exact (Hfile (say "oi!" [Byte.x02]) eq_refl).
Defined.

(** ** The process, continued *)

Section ProcessMore.

Lemma dead_no_step p q t : status p = Some t -> step p q -> False.
Proof. intros Hd Hstep. destruct Hstep; congruence. Qed.

Lemma drained_step p q :
  drained p -> step p q -> status q = Some killed /\ pc q = pc p.
Proof.
  intros (Hst & Hpc & Hl & Hr & Ht & Hs) Hstep.
  destruct Hstep as [p _ Hmk | p s _ _ Hsend | p _ Hend | p s c _ Hbusy _
                     | p s c _ Hbusy _ | p s r c _ Hsend _ | p s o _ Hbusy _
                     | p _];
    cbn [pc status]; try congruence;
    try (destruct s; congruence).
  split; reflexivity.
Qed.

Lemma log_if_belongs s o format : Forall (belongs_to s) (log_if o format).
Proof.
  destruct o; constructor; [| constructor].
  split; [left; reflexivity | intros op Hop; discriminate Hop].
Qed.

Lemma forward_results_belong rs : Forall (belongs_to receive) (forward_results rs).
Proof.
  unfold forward_results, forward_result.
  induction rs as [| r rs IH]; [constructor |].
  cbn [map concat]. apply Forall_app. split; [| exact IH].
  induction (GetAlternatives r) as [| alt alts IHa]; [constructor |].
  cbn [map concat forward_alternative app].
  constructor; [| constructor; [| exact IHa]].
  - split; [left; reflexivity | intros op Hop; discriminate Hop].
  - split; [right; reflexivity |].
    intros op Hop. injection Hop as <-. reflexivity.
Qed.

End ProcessMore.

(** Closes a goal [belongs_to s e] for an event [e] given by its
    constructor. *)
Ltac own_event :=
  split;
  [ first [left; reflexivity | right; reflexivity]
  | let op := fresh "op" in
    let Hop := fresh "Hop" in
    intros op Hop; cbn in Hop;
    first [discriminate Hop | injection Hop as <-; reflexivity] ].

(** Splits a trace into its events and the traces it is made of. *)
Ltac own_trace :=
  repeat first
    [ apply Forall_nil_2
    | apply log_if_belongs
    | apply forward_results_belong
    | assumption
    | apply Forall_app_2
    | apply Forall_cons_2; [own_event |] ].

(** X16.  When the input is exhausted and the stream has ended, the program
    does not stop: with the ingester and the receiver returned, the
    translator waiting on [alts], the speaker on [texts] and [main] on
    [wait], no goroutine can take a step, and the only thing that can
    still happen to the process is to be terminated from outside.  Such a
    state can be reached. *)
Theorem drained_process_waits_until_killed (p q : process) :
  drained p -> rtc step p q ->
  (q = p \/ status q = Some killed) /\
  pc q = at_recv_wait /\
  exists d, reachable d /\ drained d.
Proof.
  intros Hd Hrun. split; [| split].
  - destruct Hrun as [| p q r Hstep Hrest]; [left; reflexivity |].
    right. destruct (drained_step _ _ Hd Hstep) as [Hk _].
    destruct Hrest as [| q r r' Hstep' _]; [exact Hk |].
    destruct (dead_no_step _ _ _ Hk Hstep').
  - destruct Hrun as [| p q r Hstep Hrest]; [apply Hd |].
    destruct (drained_step _ _ Hd Hstep) as [Hk Hpc].
    destruct Hrest as [| q r r' Hstep' _];
      [rewrite Hpc; apply Hd | destruct (dead_no_step _ _ _ Hk Hstep')].
  - eexists. split.
    + eapply rtc_l; [exact (main_make_wait launched eq_refl eq_refl) |].
      eapply rtc_l;
        [apply (stage_stop _ listen Returned); reflexivity |].
      eapply rtc_l;
        [apply (stage_stop _ receive Returned); reflexivity |].
      eapply rtc_l;
        [apply (stage_receive _ translate ch_alts); reflexivity |].
      eapply rtc_l;
        [apply (stage_receive _ speak ch_texts); reflexivity |].
      apply rtc_refl.
    + repeat split.
Qed.

Lemma drained_process_waits_until_killed_witness :
  (drained_process = drained_process \/ status drained_process = Some killed) /\
  pc drained_process = at_recv_wait /\
  exists d, reachable d /\ drained d.
Proof.
  apply (drained_process_waits_until_killed drained_process drained_process).
  - repeat split.
  - apply rtc_refl.
Defined.

(** X17.  Each loop keeps to its own calls: the stream is written by the
    ingester alone, [alts] is sent on by the receiver and received from by
    the translator, [texts] is sent on by the translator and received from
    by the speaker, and the file is written by the speaker; the channel
    operations of every trace are those of the tables [sends_on] and
    [receives_on], and every way a loop stops is in the table [can_stop]. *)
Theorem loops_keep_to_their_own_calls
    (lscript : list listen_step) (close : option error)
    (rscript : list recv_result)
    (code : string) (tscript : list translate_step)
    (lang : string) (client : option error) (fs : files)
    (sscript : list speak_step) :
  (Forall (belongs_to listen) (startListeningStdin lscript close).1 /\
   ((startListeningStdin lscript close).2 = Blocked \/
    can_stop listen (startListeningStdin lscript close).2 = true)) /\
  (Forall (belongs_to receive) (startReceivingStream rscript).1 /\
   ((startReceivingStream rscript).2 = Blocked \/
    can_stop receive (startReceivingStream rscript).2 = true)) /\
  (Forall (belongs_to translate) (startTranslating code tscript).1 /\
   ((startTranslating code tscript).2 = Blocked \/
    can_stop translate (startTranslating code tscript).2 = true)) /\
  (Forall (belongs_to speak) (startSpeaking lang client fs sscript).1.1 /\
   ((startSpeaking lang client fs sscript).2 = Blocked \/
    can_stop speak (startSpeaking lang client fs sscript).2 = true)).
Proof.
  split; [split; [| apply can_stop_listen] |].
  { unfold startListeningStdin. generalize (replicate buf_size Byte.x00).
    induction lscript as [| s lscript IH]; intros buf; [constructor |].
    cbn [listen_loop]. destruct (Read (ls_read s) buf) as [n buf'].
    specialize (IH buf').
    destruct (rd_err (ls_read s)) as [[| msg] |].
    - destruct close; cbn [fst]; own_trace.
    - destruct (listen_loop buf' lscript close) as [t o]. cbn [fst] in *.
      own_trace.
    - destruct (listen_loop buf' lscript close) as [t o]. cbn [fst] in *.
      own_trace. }
  split; [split; [| apply can_stop_receive] |].
  { induction rscript as [| [[| msg] | resp] rscript IH]; cbn [startReceivingStream];
      try (cbn [fst]; own_trace).
    destruct (Error resp) as [st |].
    - cbn [fst]. unfold recognition_failed.
      destruct (exceeded_limit st); own_trace.
    - destruct (startReceivingStream rscript) as [t o]. cbn [fst] in *.
      own_trace. }
  split; [split; [| apply can_stop_translate] |].
  { induction tscript as [| s tscript IH]; cbn [startTranslating];
      [constructor |].
    destruct (tr_client s); [cbn [fst]; own_trace |].
    destruct (tr_parse s); [cbn [fst]; own_trace |].
    destruct (tr_translate s); [cbn [fst]; own_trace |].
    unfold forward_translation.
    destruct (tr_translations s !! 0%nat) as [t0 |]; [| cbn [fst]; own_trace].
    destruct (startTranslating code tscript) as [t o]. cbn [fst] in *.
    own_trace. }
  split; [| apply can_stop_speak].
  destruct client; [cbn; own_trace |]. cbn [startSpeaking].
  revert fs. induction sscript as [| s sscript IH]; intros fs;
    cbn [speak_loop]; [constructor |].
  destruct (sp_synth s); [cbn [fst]; own_trace |].
  destruct (WriteFile fs filename (sp_audio s) (sp_write s)) as [fs' [e |]];
    [cbn [fst]; own_trace |].
  specialize (IH fs'). destruct (speak_loop lang fs' sscript) as [[t fs''] o].
  cbn [fst] in *. own_trace.
Qed.
